(** * Time encoding and decoding with integrate-and-fire neurons

    A shallow embedding of [bionet/ted/iaf.py] and [bionet/ted/vtdm.py]:
    the recoverability check, the IAF encoder, and the dense, fast,
    population and Vandermonde decoders.

    Python floats, numpy scalars and the numpy/scipy routines the modules
    import are not code of the repository.  The arithmetic they provide is
    an interface ([Numeric], [ComplexOps]); every function of the
    repository is written against it, exactly as the duck-typed source is.
    Two implementations of the interface are given further down: IEEE
    binary64 ([PrimFloat], the arithmetic Python runs), in which the
    functions are evaluated on concrete inputs, and exact arithmetic on
    the real numbers, for the few statements that are about the order or
    the sign of sums and products. *)

From Stdlib Require Import String.
From Stdlib Require Import List ZArith Bool Lia.
From Stdlib Require Import Reals Lra Floats.
Import ListNotations.

(** ** Exceptions *)

(** The modules raise [ValueError] with a message; indexing raises
    [IndexError], numpy refuses negative array shapes with a
    [ValueError] of its own, [int()] of an infinity is an
    [OverflowError], Python's division of a float by zero is a
    [ZeroDivisionError], and [numpy.linalg] has its [LinAlgError]. *)
Inductive exn : Type :=
| ValueError (msg : string)
| IndexError
| OverflowError
| ZeroDivisionError
| LinAlgError.

Inductive result (A : Type) : Type :=
| Ok (a : A)
| Raise (e : exn).
Arguments Ok {A} a.
Arguments Raise {A} e.

Definition bind {A B : Type} (r : result A) (k : A -> result B) : result B :=
  match r with
  | Ok a => k a
  | Raise e => Raise e
  end.

Notation "x <- e ;; k" := (bind e (fun x => k))
  (at level 61, e at next level, right associativity).

Definition fmap {A B : Type} (f : A -> B) (r : result A) : result B :=
  x <- r ;; Ok (f x).

(** The error kinds of the specification, by the message the code raises. *)
Definition BiasTooLow : exn := ValueError "bias too low".
Definition NonRealRate : exn :=
  ValueError "reconstruction condition not satisfied".
Definition ReconstructionConditionViolated : exn :=
  ValueError "reconstruction condition not satisfied;try raising b or reducing d".
Definition ResolutionTooCoarse : exn :=
  ValueError "encoding time resolution must not exceeed original signal resolution".
Definition ResolutionNegative : exn :=
  ValueError "encoding time resolution must be nonnegative".
Definition UnrecognizedQuadratureMethod : exn :=
  ValueError "unrecognized quadrature method".
Definition InsufficientSpikes : exn :=
  ValueError "s must contain at least 2 elements".
Definition NoSpikeData : exn := ValueError "no spike data given".
(** [numpy.max] of an empty array, and an array shape with a negative
    entry. *)
Definition EmptyReduction : exn :=
  ValueError "zero-size array to reduction operation maximum which has no identity".
Definition NegativeDimensions : exn :=
  ValueError "negative dimensions are not allowed".

Definition ResolutionError (e : exn) : Prop :=
  e = ResolutionTooCoarse \/ e = ResolutionNegative.

(** ** The arithmetic interface *)

(** Real scalars: Python [float] / [numpy.float64].  [div] is the
    division of numpy scalars and arrays: a zero divisor gives an
    infinity or a NaN and raises nothing.  The division of two Python
    floats is [pydiv] below. *)
Class Numeric (num : Type) : Type := {
  of_Z : Z -> num;                 (* an int where a float is expected *)
  add : num -> num -> num;
  sub : num -> num -> num;
  mul : num -> num -> num;
  div : num -> num -> num;
  opp : num -> num;
  ltb : num -> num -> bool;        (* x < y *)
  leb : num -> num -> bool;        (* x <= y *)
  eqb : num -> num -> bool;        (* x == y *)
  isinf : num -> bool;             (* numpy.isinf *)
  isreal : num -> bool;            (* numpy.isreal *)
  nabs : num -> num;               (* numpy.abs *)
  nmax : num -> num -> num;        (* numpy.maximum *)
  to_int : num -> result Z;        (* int(x) *)
}.

Declare Scope num_scope.
Delimit Scope num_scope with num.
Infix "+" := add : num_scope.
Infix "-" := sub : num_scope.
Infix "*" := mul : num_scope.
Infix "/" := div : num_scope.
Notation "- x" := (opp x) : num_scope.

Section Comparisons.
Context {num : Type} {N : Numeric num}.

Definition gtb (x y : num) : bool := ltb y x.
Definition geb (x y : num) : bool := leb y x.
Definition neb (x y : num) : bool := negb (eqb x y).
Definition zero : num := of_Z 0.

(** [x / y] where both operands are Python scalars (the float
    parameters of a function, ints, a complex literal): a zero divisor
    raises. *)
Definition pydiv (x y : num) : result num :=
  if eqb y zero then Raise ZeroDivisionError else Ok (div x y).
End Comparisons.

Infix "<?" := ltb : num_scope.
Infix "<=?" := leb : num_scope.
Infix ">?" := gtb : num_scope.
Infix ">=?" := geb : num_scope.

(** ** Python sequences *)

Section Sequences.
Context {A : Type}.

(** [u[i]] for an index [i >= 0]. *)
Definition getitem (u : list A) (i : nat) : result A :=
  match nth_error u i with
  | Some x => Ok x
  | None => Raise IndexError
  end.

(** [for i in xrange(n): st = body(st, i)], starting at index [i]. *)
Fixpoint for_range {St : Type} (body : St -> nat -> result St)
    (i n : nat) (st : St) : result St :=
  match n with
  | O => Ok st
  | S n' => st' <- body st i ;; for_range body (S i) n' st'
  end.

(** [a + b], [a * b] ... of two arrays, element by element. *)
Fixpoint map2 {B C : Type} (f : A -> B -> C) (xs : list A) (ys : list B)
    : list C :=
  match xs, ys with
  | x :: xs', y :: ys' => f x y :: map2 f xs' ys'
  | _, _ => []
  end.

(** A comprehension whose body may raise. *)
Fixpoint mapM {B : Type} (f : A -> result B) (l : list A) : result (list B) :=
  match l with
  | [] => Ok []
  | x :: l' => y <- f x ;; ys <- mapM f l' ;; Ok (y :: ys)
  end.
End Sequences.

(** ** iaf.py *)

Section Iaf.
Context {num : Type} {N : Numeric num}.
Local Open Scope num_scope.

(** numpy and scipy routines on real scalars and arrays. *)
Variable exp : num -> num.
Variable log : num -> num.
Variable pi : num.
Variable resample : list num -> Z -> result (list num).

(** [numpy.max] of an array. *)
Definition amax (u : list num) : result num :=
  match u with
  | [] => Raise EmptyReduction
  | x :: xs => Ok (fold_left nmax xs x)
  end.

Definition iaf_recoverable (u : list num) (bw b d R C : num) : result bool :=
  c <- amax (map nabs u) ;;
  if c >=? b then Raise BiasTooLow
  else
    let r := R * C * log (of_Z 1 - d / (d - (b - c) * R)) * bw / pi in
    let e := d / ((b - c) * R) in
    if negb (isreal r) then Raise NonRealRate
    else if r >=? (of_Z 1 - e) / (of_Z 1 + e)
         then Raise ReconstructionConditionViolated
         else Ok true.

(** What [iaf_encode] hands back with [full_output] set: the spike
    intervals, the resolution it encoded at, and the integrator state. *)
Record encoder_state : Type := mkState {
  spikes : list num;
  st_dt : num;
  st_y : num;
  st_interval : num;
}.

(** The three closures [compute_y] is bound to. *)
Definition compute_y_rect (u : list num) (dt b C : num)
    (y : num) (i : nat) : result num :=
  ui <- getitem u i ;;
  Ok (y + dt * (b + ui) / C).

Definition compute_y_trapz (u : list num) (dt b C : num)
    (y : num) (i : nat) : result num :=
  ui <- getitem u i ;;
  ui1 <- getitem u (i + 1) ;;
  Ok (y + dt * (b + (ui + ui1) / of_Z 2) / C).

(** In [y*exp(-dt/RC)+R*(1-exp(-dt/RC))*(b+u[i])] the quotient
    [-dt/RC] of two Python floats comes first. *)
Definition compute_y_leaky (u : list num) (dt b R RC : num)
    (y : num) (i : nat) : result num :=
  q <- pydiv (- dt) RC ;;
  ui <- getitem u i ;;
  Ok (y * exp q + R * (of_Z 1 - exp q) * (b + ui)).

(** The loop state is [(y, interval, s)]. *)
Definition encode_body (compute_y : num -> nat -> result num) (dt d : num)
    (st : num * num * list num) (i : nat) : result (num * num * list num) :=
  let '(y, interval, s) := st in
  y <- compute_y y i ;;
  let interval := interval + dt in
  if y >=? d then Ok (zero, zero, (s ++ [interval])%list)
  else Ok (y, interval, s).

(** Lines 130-132: [u = resample(u, len(u)*int(dt/dte)); dt = dte]. *)
Definition encode_resample (u : list num) (dt dte : num)
    : result (list num * num) :=
  if neb dte zero
  then k <- to_int (dt / dte) ;;
       u' <- resample u (Z.of_nat (List.length u) * k)%Z ;;
       Ok (u', dte)
  else Ok (u, dt).

(** Lines 139-154: the closure and the number of rounds. *)
Definition choose_compute_y (u : list num) (nu : nat) (dt b R C : num)
    (quad_method : string) : result ((num -> nat -> result num) * nat) :=
  if isinf R then
    if String.eqb quad_method "rect"
    then Ok (compute_y_rect u dt b C, nu)
    else if String.eqb quad_method "trapz"
    then Ok (compute_y_trapz u dt b C, (nu - 1)%nat)
    else Raise UnrecognizedQuadratureMethod
  else
    let RC := R * C in
    Ok (compute_y_leaky u dt b R RC, nu).

Definition iaf_encode_full (u : list num) (dt b d R C dte y interval : num)
    (quad_method : string) : result encoder_state :=
  let nu := List.length u in
  if Nat.eqb nu 0 then Ok (mkState [] dt y interval)
  else if dte >? dt then Raise ResolutionTooCoarse
  else if dte <? zero then Raise ResolutionNegative
  else
    udt <- encode_resample u dt dte ;;
    let '(u, dt) := udt in
    cl <- choose_compute_y u nu dt b R C quad_method ;;
    let '(compute_y, last) := cl in
    st <- for_range (encode_body compute_y dt d) 0 last (y, interval, []) ;;
    let '(y, interval, s) := st in
    Ok (mkState s dt y interval).

(** [full_output=False]: the spike intervals alone. *)
Definition iaf_encode (u : list num) (dt b d R C dte y interval : num)
    (quad_method : string) : result (list num) :=
  fmap spikes (iaf_encode_full u dt b d R C dte y interval quad_method).

End Iaf.

(** ** Complex scalars and arrays *)

(** Python [complex] / [numpy.complex128] over the real scalars. *)
Class ComplexOps (num cnum : Type) : Type := {
  complex : num -> num -> cnum;    (* complex(re, im) *)
  cof : num -> cnum;               (* a real where a complex is expected *)
  creal : cnum -> num;             (* the real part; storing into a float array *)
  cadd : cnum -> cnum -> cnum;
  csub : cnum -> cnum -> cnum;
  cmul : cnum -> cnum -> cnum;
  cdiv : cnum -> cnum -> cnum;
  copp : cnum -> cnum;
  cconj : cnum -> cnum;            (* numpy.conjugate *)
  cexp : cnum -> cnum;             (* numpy.exp of a complex *)
  clog : cnum -> cnum;             (* numpy.log of a complex *)
  cpow : cnum -> Z -> cnum;        (* x ** k *)
}.

Declare Scope cnum_scope.
Delimit Scope cnum_scope with cnum.
Infix "+" := cadd : cnum_scope.
Infix "-" := csub : cnum_scope.
Infix "*" := cmul : cnum_scope.
Infix "/" := cdiv : cnum_scope.
Notation "- x" := (copp x) : cnum_scope.
Arguments cof {num cnum ComplexOps} x%_num.
Arguments complex {num cnum ComplexOps} re%_num im%_num.

Section Arrays.
Context {num : Type} {N : Numeric num}.
Local Open Scope num_scope.

(** [numpy.cumsum]. *)
Fixpoint cumsum_from (acc : num) (s : list num) : list num :=
  match s with
  | [] => []
  | x :: s' => let acc' := acc + x in acc' :: cumsum_from acc' s'
  end.

Definition cumsum (s : list num) : list num :=
  match s with
  | [] => []
  | x :: s' => x :: cumsum_from x s'
  end.

(** [(ts[0:-1]+ts[1:])/2]. *)
Definition midpoints (ts : list num) : list num :=
  map (fun x => x / of_Z 2) (map2 add (removelast ts) (tl ts)).

(** [sum(l)] of a list of ints. *)
Definition sum_nat (l : list nat) : nat := fold_left Nat.add l 0%nat.

(** [numpy.dot] of a matrix (a list of rows) and a vector. *)
Definition dot_mv (G : list (list num)) (q : list num) : list num :=
  map (fun row => fold_left add (map2 mul row q) zero) G.

(** [__pinv_rcond__ = 1e-8]. *)
Definition pinv_rcond : num := of_Z 1 / of_Z 100000000.
End Arrays.

Section Decoders.
Context {num cnum : Type} {N : Numeric num} {CN : ComplexOps num cnum}.
Local Open Scope num_scope.

Variable exp : num -> num.
Variable pi : num.
(** [scipy.special.sici(x)[0]], the sine integral. *)
Variable sici_si : num -> num.
(** [bionet.utils.scipy_extras.ei], the exponential integral of a
    complex argument; the module is not among the sources. *)
Variable ei : cnum -> cnum.
Variable sinc : num -> num.
Variable arange : num -> num -> num -> list num.
Variable pinv : list (list num) -> num -> result (list (list num)).

(** The literal [1j]. *)
Definition j : cnum := complex (of_Z 0) (of_Z 1).
Definition cZ (z : Z) : cnum := cof (of_Z z).

(** *** Entries of the reconstruction matrix *)

(** Non-leaky entry, lines 215-217 (and 379-381):
    [temp = sici(bw*(ts-tsh[j]))[0]/pi; G[i,j] = temp[i+1]-temp[i]]. *)
Definition G_entry_ideal (bw : num) (ts : list num) (tsh_j : num) (i : nat)
    : num :=
  let temp := map (fun t => sici_si (bw * (t - tsh_j)) / pi) ts in
  nth (i + 1) temp zero - nth i temp zero.

(** Leaky entry, lines 228-243 (and 407-422); the complex value is
    stored into a float array, which keeps its real part. *)
Definition G_entry_leaky (bw RC : num) (ts : list num) (tsh_j : num) (i : nat)
    : num :=
  let ts_i := nth i ts zero in
  let ts_i1 := nth (i + 1) ts zero in
  let RCbw := (j * cof RC * cof bw)%cnum in
  let e1 (t : num) := ei ((cZ 1 - RCbw) * cof (t - tsh_j) / cof RC)%cnum in
  let e2 (t : num) := ei ((cZ 1 + RCbw) * cof (t - tsh_j) / cof RC)%cnum in
  if (ts_i <? tsh_j) && (tsh_j <? ts_i1) then
    creal ((- j / cZ 4) * cof (exp ((tsh_j - ts_i1) / RC)%num) *
           (cZ 2 * e1 ts_i -
            cZ 2 * e1 ts_i1 -
            cZ 2 * e2 ts_i +
            cZ 2 * e2 ts_i1 +
            clog (- cZ 1 - RCbw) + clog (cZ 1 - RCbw) -
            clog (- cZ 1 + RCbw) - clog (cZ 1 + RCbw) +
            clog (- j / (- j + cof (RC * bw))) -
            clog (j / (- j + cof (RC * bw))) +
            clog (- j / (j + cof (RC * bw))) -
            clog (j / (j + cof (RC * bw)))) / cof pi)%cnum
  else
    creal ((- j / cZ 2) * cof (exp ((tsh_j - ts_i1) / RC)%num) *
           (e1 ts_i - e1 ts_i1 - e2 ts_i + e2 ts_i1) / cof pi)%cnum.

(** An [nr]-by-[nc] array filled entry by entry. *)
Definition build_matrix (nr nc : nat) (entry : nat -> nat -> num)
    : list (list num) :=
  map (fun i => map (fun k => entry i k) (seq 0 nc)) (seq 0 nr).

(** *** Quanta *)

(** [iaf_decode], lines 218 and 245. *)
Definition iaf_decode_q (s : list num) (b d R C : num) : list num :=
  let RC := R * C in
  if isinf R then map (fun x => C * d - b * x) (tl s)
  else map (fun x => C * (d + b * R * (exp (- x / RC) - of_Z 1))) (tl s).

(** [iaf_decode_fast], lines 301-304. *)
Definition iaf_decode_fast_q (s : list num) (b d R C : num) : list num :=
  let RC := R * C in
  if isinf R then map (fun x => C * d - b * x) (tl s)
  else map (fun x => C * (d + b * R * (exp (- x / RC) - of_Z 1))) (tl s).

(** *** The dense decoder *)

Definition iaf_decode_G (s : list num) (bw R C : num) : list (list num) :=
  let ts := cumsum s in
  let tsh := midpoints ts in
  let nsh := List.length tsh in
  let RC := R * C in
  if isinf R
  then build_matrix nsh nsh (fun i k => G_entry_ideal bw ts (nth k tsh zero) i)
  else build_matrix nsh nsh (fun i k => G_entry_leaky bw RC ts (nth k tsh zero) i).

(** Lines 247-254: the coefficients and the sum of weighted sincs. *)
Definition sinc_reconstruct (t tsh : list num) (bwpi : num) (c : list num)
    (offset : nat) (u_rec : list num) : result (list num) :=
  for_range
    (fun u_rec i =>
       ci <- getitem c (offset + i) ;;
       tsh_i <- getitem tsh i ;;
       Ok (map2 add u_rec
             (map (fun tk => sinc (bwpi * (tk - tsh_i)) * bwpi * ci) t)))
    0 (List.length tsh) u_rec.

Definition iaf_decode_solve (s : list num) (dur dt bw : num)
    (G : list (list num)) (q : list num) : result (list num) :=
  let tsh := midpoints (cumsum s) in
  let t := arange zero dur dt in
  let bwpi := bw / pi in
  Gi <- pinv G pinv_rcond ;;
  let c := dot_mv Gi q in
  sinc_reconstruct t tsh bwpi c 0 (map (fun _ => zero) t).

Definition iaf_decode (s : list num) (dur dt bw b d R C : num)
    : result (list num) :=
  let ns := List.length s in
  if Nat.ltb ns 2 then Raise InsufficientSpikes
  else
    iaf_decode_solve s dur dt bw (iaf_decode_G s bw R C)
      (iaf_decode_q s b d R C).

(** *** The population decoder *)

(** [G_block] of the loop iteration [(l, m)]: lines 373-381 when
    [all(isinf(R_list))], lines 392-422 otherwise, where [RC] is
    [R_list[l]*C_list[l]]. *)
Definition G_block (all_inf : bool) (bw RC : num) (ts_l tsh_l tsh_m : list num)
    : list (list num) :=
  if all_inf
  then build_matrix (List.length tsh_l) (List.length tsh_m)
         (fun n k => G_entry_ideal bw ts_l (nth k tsh_m zero) n)
  else build_matrix (List.length tsh_l) (List.length tsh_m)
         (fun n k => G_entry_leaky bw RC ts_l (nth k tsh_m zero) n).

(** The quanta of encoder [l], lines 387-388 and 428-430. *)
Definition pop_q (all_inf : bool) (s_l : list num) (b d R C : num) : list num :=
  if all_inf
  then map (fun x => C * d - b * x) (tl s_l)
  else map (fun x => C * (d + b * R * (exp (- x / (R * C)) - of_Z 1))) (tl s_l).

(** Blocks with the same number of rows, side by side. *)
Definition hstack (nrows : nat) (blocks : list (list (list num)))
    : list (list num) :=
  map (fun n => concat (map (fun blk => nth n blk []) blocks)) (seq 0 nrows).

(** [G_block] as the iteration [(l, m)] leaves it. *)
Definition pop_G_block (bw : num) (s_list : list (list num))
    (R_list C_list : list num) (l m : nat) : result (list (list num)) :=
  let ts_list := map cumsum s_list in
  let tsh_list := map midpoints ts_list in
  let ts_l := nth l ts_list [] in
  let tsh_l := nth l tsh_list [] in
  let tsh_m := nth m tsh_list [] in
  if forallb isinf R_list then Ok (G_block true bw zero ts_l tsh_l tsh_m)
  else
    R_l <- getitem R_list l ;;
    C_l <- getitem C_list l ;;
    Ok (G_block false bw (R_l * C_l) ts_l tsh_l tsh_m).

(** The quanta of encoder [l] as the iteration [l] leaves them. *)
Definition pop_quanta (s_list : list (list num))
    (b_list d_list R_list C_list : list num) (l : nat) : result (list num) :=
  let s_l := nth l s_list [] in
  if forallb isinf R_list then
    C_l <- getitem C_list l ;;
    d_l <- getitem d_list l ;;
    b_l <- getitem b_list l ;;
    Ok (pop_q true s_l b_l d_l zero C_l)
  else
    C_l <- getitem C_list l ;;
    d_l <- getitem d_list l ;;
    b_l <- getitem b_list l ;;
    R_l <- getitem R_list l ;;
    Ok (pop_q false s_l b_l d_l R_l C_l).

(** One iteration of the loop over [l]: the rows of [G] and the
    entries of [q] that belong to encoder [l]. *)
Definition pop_rows (bw : num) (s_list : list (list num))
    (b_list d_list R_list C_list : list num) (l : nat)
    : result (list (list num) * list num) :=
  let M := List.length s_list in
  let tsh_l := nth l (map midpoints (map cumsum s_list)) [] in
  blocks <- mapM (pop_G_block bw s_list R_list C_list l) (seq 0 M) ;;
  q_l <- pop_quanta s_list b_list d_list R_list C_list l ;;
  Ok (hstack (List.length tsh_l) blocks, q_l).

(** The matrix [G] and the vector [q] the population decoder solves. *)
Definition iaf_decode_pop_system (s_list : list (list num)) (bw : num)
    (b_list d_list R_list C_list : list num)
    : result (list (list num) * list num) :=
  let M := List.length s_list in
  rows <- mapM (pop_rows bw s_list b_list d_list R_list C_list) (seq 0 M) ;;
  Ok (List.concat (map fst rows), List.concat (map snd rows)).

Definition iaf_decode_pop (s_list : list (list num)) (dur dt bw : num)
    (b_list d_list R_list C_list : list num) : result (list num) :=
  let M := List.length s_list in
  if Nat.eqb M 0 then Raise NoSpikeData
  else
    let bwpi := bw / pi in
    let tsh_list := map midpoints (map cumsum s_list) in
    let Nsh_list := map (@List.length num) tsh_list in
    Gq <- iaf_decode_pop_system s_list bw b_list d_list R_list C_list ;;
    let '(G, q) := Gq in
    Gi <- pinv G pinv_rcond ;;
    let c := dot_mv Gi q in
    let t := arange zero dur dt in
    for_range
      (fun u_rec m =>
         sinc_reconstruct t (nth m tsh_list []) bwpi c
           (sum_nat (firstn m Nsh_list)) u_rec)
      0 M (map (fun _ => zero) t).

End Decoders.

(** ** Complex arrays, the fast decoder and vtdm.py *)

(** What [mdot] is handed: a scalar or a two-dimensional array. *)
Inductive ndarray (cnum : Type) : Type :=
| Scalar (x : cnum)
| Matrix (m : list (list cnum)).
Arguments Scalar {cnum} x.
Arguments Matrix {cnum} m.

Section ComplexArrays.
Context {num cnum : Type} {N : Numeric num} {CN : ComplexOps num cnum}.

(** [numpy.ones((n, n))] under [numpy.triu]. *)
Definition triu_ones (n : nat) : list (list cnum) :=
  map (fun i => map (fun k => if Nat.leb i k then cZ 1 else cZ 0) (seq 0 n))
      (seq 0 n).

(** [numpy.diag] of a vector. *)
Definition diag (v : list cnum) : list (list cnum) :=
  map (fun i => map (fun k => if Nat.eqb i k then nth i v (cZ 0) else cZ 0)
                    (seq 0 (List.length v)))
      (seq 0 (List.length v)).

Definition ncols (m : list (list cnum)) : nat :=
  match m with
  | [] => 0
  | row :: _ => List.length row
  end.

(** [m.T]. *)
Definition transpose (m : list (list cnum)) : list (list cnum) :=
  map (fun k => map (fun row => nth k row (cZ 0)) m) (seq 0 (ncols m)).

(** [numpy.dot] of two-dimensional arrays. *)
Definition cdot (a b : list (list cnum)) : list (list cnum) :=
  map (fun row =>
         map (fun col => fold_left cadd (map2 cmul row col) (cZ 0))
             (transpose b))
      a.

(** [v[:, newaxis]]: a vector as a column. *)
Definition column (v : list cnum) : list (list cnum) :=
  map (fun x => [x]) v.

(** [numpy.vander(z)]: column [i] holds [z ** (N - i - 1)]. *)
Definition vander (z : list cnum) : list (list cnum) :=
  let n := List.length z in
  map (fun x => map (fun i => cpow x (Z.of_nat n - Z.of_nat i - 1)) (seq 0 n)) z.

(** [numpy.fliplr]. *)
Definition fliplr (m : list (list cnum)) : list (list cnum) :=
  map (@rev cnum) m.
End ComplexArrays.

Section FastAndVander.
Context {num cnum : Type} {N : Numeric num} {CN : ComplexOps num cnum}.
Local Open Scope num_scope.

Variable exp : num -> num.
Variable pi : num.
Variable arange : num -> num -> num -> list num.
(** [numpy.linalg.pinv] of a complex matrix. *)
Variable cpinv : list (list cnum) -> num -> result (list (list cnum)).
(** [bionet.utils.numpy_extras.mdot] and [bionet.ted.bpa.bpa]; neither
    module is among the sources.  [bpa(V, b)] solves the Vandermonde
    system [V d = b] for the column [d]. *)
Variable mdot : list (ndarray cnum) -> result (list (list cnum)).
Variable bpa : list (list cnum) -> list (list cnum) -> result (list (list cnum)).

(** *** iaf_decode_fast *)

(** Lines 295-317, the quanta apart; [jbwM = 1j*bw/M] and
    [a = bw/(pi*(2*M+1))] divide Python scalars. *)
Definition iaf_decode_fast_solve (s : list num) (dur dt bw M : num)
    (q : list num) : result (list num) :=
  let ts := cumsum s in
  let tsh := midpoints ts in
  let nsh := List.length tsh in
  let t := arange zero dur dt in
  if eqb M zero then Raise ZeroDivisionError else
  let jbwM := (j * cof bw / cof M)%cnum in
  a <- pydiv bw (pi * (of_Z 2 * M + of_Z 1)) ;;
  let m := arange (- M) (M + of_Z 1) (of_Z 1) in
  let P_inv := map (map copp) (triu_ones nsh) in
  let S := map (fun m_k =>
                  map (fun ts_l => cexp (- jbwM * cof (m_k * ts_l))%cnum)
                      (removelast ts)) m in
  let D := diag (map cof (tl s)) in
  let SD := cdot S D in
  T <- mdot [Scalar (cof a); Matrix SD; Matrix (map (map cconj) (transpose S))] ;;
  Ti <- cpinv T pinv_rcond ;;
  dd <- mdot [Scalar (cof a); Matrix Ti; Matrix SD; Matrix P_inv;
              Matrix (column (map cof q))] ;;
  let E := map (fun m_k => map (fun t_l => cexp (jbwM * cof m_k * cof t_l)%cnum) t)
               m in
  let mdd := map (fun row => map2 cmul (map cof m) row) (transpose dd) in
  Ok (List.concat
        (map (map (fun z => creal (jbwM * z)%cnum)) (cdot mdd E))).

Definition iaf_decode_fast (s : list num) (dur dt bw M b d R C : num)
    : result (list num) :=
  let ns := List.length s in
  if Nat.ltb ns 2 then Raise InsufficientSpikes
  else iaf_decode_fast_solve s dur dt bw M (iaf_decode_fast_q exp s b d R C).

(** *** The Vandermonde system of vtdm.py *)

(** [ns = len(s)-1] and [n = ns-1] are Python ints. *)
Definition vander_ns (s : list num) : Z := Z.of_nat (List.length s) - 1.
Definition vander_n (s : list num) : Z := vander_ns s - 1.

(** [z = exp(1j*2*bw*ts[:-1]/n)]. *)
Definition vander_nodes (s : list num) (bw : num) : list cnum :=
  let ts := cumsum s in
  let n := vander_n s in
  map (fun t => cexp (j * cZ 2 * cof bw * cof t / cZ n)%cnum) (removelast ts).

(** [V = fliplr(vander(z))]. *)
Definition vander_V (s : list num) (bw : num) : list (list cnum) :=
  fliplr (vander (vander_nodes s bw)).

(** [triu(ones((ns, ns), float))]; numpy refuses a negative shape. *)
Definition vander_P (s : list num) : result (list (list cnum)) :=
  if (vander_ns s <? 0)%Z then Raise NegativeDimensions
  else Ok (triu_ones (Z.to_nat (vander_ns s))).

(** [D = diag(exp(1j*bw*ts[:-1]))]. *)
Definition vander_D (s : list num) (bw : num) : list (list cnum) :=
  diag (map (fun t => cexp (j * cof bw * cof t)%cnum) (removelast (cumsum s))).

(** Lines 68-75, 138-145 and 198-205: the signal from the coefficients
    [d], a column whose row [i] holds the one entry [d[i]]; the complex
    terms are added into a float array, which keeps the real part.  In
    [c = 1j*(bw-i*2*bw/n)] the float [i*2*bw] is divided by the int [n],
    which raises on a train of two intervals ([n = 0]). *)
Definition vander_reconstruct (s : list num) (dur dt bw : num)
    (d : list (list cnum)) : result (list num) :=
  let ns := vander_ns s in
  let n := vander_n s in
  let t := arange zero dur dt in
  for_range
    (fun u i =>
       q <- pydiv (of_Z (Z.of_nat i * 2) * bw) (of_Z n) ;;
       let c := (j * cof (bw - q)%num)%cnum in
       row <- getitem d i ;;
       d_i <- getitem row 0 ;;
       Ok (map2 (fun u_k t_k =>
                   creal (cof u_k + c * d_i * cexp (- c * cof t_k))%cnum)
                u t))
    0 (Z.to_nat ns) (map (fun _ => zero) t).

(** *** asdm_decode_vander *)

(** Lines 59-62. *)
Definition asdm_vander_q (s : list num) (b d k sgn : num) : list num :=
  let ns := Z.to_nat (vander_ns s) in
  let signs :=
    if eqb sgn (of_Z (-1))
    then map (fun i => of_Z ((-1) ^ Z.of_nat i)) (seq 0 ns)
    else map (fun i => of_Z ((-1) ^ Z.of_nat i)) (seq 1 ns) in
  map2 mul signs (map (fun x => of_Z 2 * k * d - b * x) (tl s)).

Definition asdm_decode_vander (s : list num) (dur dt bw b d k sgn : num)
    : result (list num) :=
  let V := vander_V s bw in
  P <- vander_P s ;;
  let D := vander_D s bw in
  let q := asdm_vander_q s b d k sgn in
  rhs <- mdot [Matrix D; Matrix P; Matrix (column (map cof q))] ;;
  d <- bpa V rhs ;;
  vander_reconstruct s dur dt bw d.

(** *** asdm_decode_vander_ins *)

(** [a = zeros(ns); a[::-2] = 1.0]: ones at [ns-1], [ns-3], ... *)
Definition ins_a (ns : nat) : list cnum :=
  map (fun i => if Nat.even (ns - 1 - i) then cZ 1 else cZ 0) (seq 0 ns).

(** [bh = zeros(ns); bh[-1] = 1.0], which needs a last entry. *)
Definition ins_bh (ns : nat) : result (list cnum) :=
  if Nat.eqb ns 0 then Raise IndexError
  else Ok (map (fun i => if Nat.eqb i (ns - 1) then cZ 1 else cZ 0) (seq 0 ns)).

(** [ex = ones(ns)] with [-1.0] at the even ([sgn == -1]) or the odd
    indices, times [s[1:]]. *)
Definition ins_r (s : list num) (sgn : num) : list num :=
  let ns := Z.to_nat (vander_ns s) in
  let ex :=
    if eqb sgn (of_Z (-1))
    then map (fun i => if Nat.even i then of_Z (-1) else of_Z 1) (seq 0 ns)
    else map (fun i => if Nat.odd i then of_Z (-1) else of_Z 1) (seq 0 ns) in
  map2 mul ex (tl s).

Definition asdm_decode_vander_ins (s : list num) (dur dt bw b sgn : num)
    : result (list num) :=
  let V := vander_V s bw in
  let D := vander_D s bw in
  P <- vander_P s ;;
  let ns := Z.to_nat (vander_ns s) in
  let a := ins_a ns in
  bh <- ins_bh ns ;;
  let r := ins_r s sgn in
  let Pab := map2 (map2 csub) P (cdot (column a) [bh]) in
  rhs <- mdot [Matrix D; Matrix Pab; Matrix (column (map cof r))] ;;
  x <- bpa V rhs ;;
  y <- bpa V (cdot D (column a)) ;;
  let yH := map (map cconj) (transpose y) in
  yyx <- mdot [Matrix y; Matrix yH; Matrix x] ;;
  let yy := nth 0 (nth 0 (cdot yH y) []) (cZ 0) in
  let d := map2 (map2 (fun x_i p_i => (cof b * (x_i - p_i / yy))%cnum)) x yyx in
  vander_reconstruct s dur dt bw d.

(** *** iaf_decode_vander *)

(** Lines 189-192. *)
Definition iaf_decode_vander_q (s : list num) (b d R C : num) : list num :=
  if isinf R then map (fun x => C * d - b * x) (tl s)
  else map (fun x => C * (d + b * R * (exp (- x / (R * C)) - of_Z 1))) (tl s).

Definition iaf_decode_vander (s : list num) (dur dt bw b d R C : num)
    : result (list num) :=
  let V := vander_V s bw in
  P <- vander_P s ;;
  let D := vander_D s bw in
  let q := iaf_decode_vander_q s b d R C in
  rhs <- mdot [Matrix D; Matrix P; Matrix (column (map cof q))] ;;
  d <- bpa V rhs ;;
  vander_reconstruct s dur dt bw d.

End FastAndVander.

(** ** The encoder and the quanta as the specification words them *)

(** The tagged variant of the integration rule. *)
Inductive quadrature : Type :=
| Rectangular
| Trapezoidal
| ExponentialEuler.

Section Reference.
Context {num : Type} {N : Numeric num}.
Local Open Scope num_scope.

Variable exp : num -> num.

(** Rectangular or trapezoidal quadrature for [R = inf], exponential
    Euler for a finite [R]; any other tag is refused. *)
Definition select_quadrature (R : num) (quad_method : string)
    : result quadrature :=
  if isinf R then
    if String.eqb quad_method "rect" then Ok Rectangular
    else if String.eqb quad_method "trapz" then Ok Trapezoidal
    else Raise UnrecognizedQuadratureMethod
  else Ok ExponentialEuler.

(** The update of [y] at a sample [ui]; the trapezoidal rule also reads
    the next sample and has no update at the last one. *)
Definition integrate (rule : quadrature) (dt b R C y ui : num)
    (rest : list num) : option num :=
  match rule with
  | Rectangular => Some (y + dt * (b + ui) / C)
  | Trapezoidal =>
      match rest with
      | [] => None
      | ui1 :: _ => Some (y + dt * (b + (ui + ui1) / of_Z 2) / C)
      end
  | ExponentialEuler =>
      Some (y * exp (- dt / (R * C)) +
            R * (of_Z 1 - exp (- dt / (R * C))) * (b + ui))
  end.

(** The reference integration loop over the samples: the interval
    counter grows by [dt] at each step; when [y >= d] the interval is
    emitted and both are reset. *)
Fixpoint reference_loop (rule : quadrature) (dt b d R C : num)
    (u : list num) (y interval : num) : list num :=
  match u with
  | [] => []
  | ui :: rest =>
      match integrate rule dt b R C y ui rest with
      | None => []
      | Some y' =>
          let interval' := interval + dt in
          if y' >=? d
          then interval' :: reference_loop rule dt b d R C rest zero zero
          else reference_loop rule dt b d R C rest y' interval'
      end
  end.

Definition encode_reference (u : list num) (dt b d R C y interval : num)
    (quad_method : string) : result (list num) :=
  match u with
  | [] => Ok []
  | _ :: _ =>
      rule <- select_quadrature R quad_method ;;
      Ok (reference_loop rule dt b d R C u y interval)
  end.

(** The quanta: [C*d - b*s[1:]] without leak,
    [C*(d + b*R*(exp(-s[1:]/(R*C)) - 1))] with. *)
Definition quanta (s : list num) (b d R C : num) : list num :=
  if isinf R
  then map (fun x => C * d - b * x) (tl s)
  else map (fun x => C * (d + b * R * (exp (- x / (R * C)) - of_Z 1))) (tl s).

(** The step the encoder integrates with: [dte] when a resampling is
    asked for, [dt] otherwise. *)
Definition encode_step (dt dte : num) : num :=
  if neb dte zero then dte else dt.

End Reference.

(** ** The order of the scalars and the encoder's invariant *)

(** What the invariant needs of the order and of [+]: a sum of a
    non-negative and a positive number is below neither.  These are
    facts of exact arithmetic and of an addition that rounds
    monotonically; that a sum is strictly above a summand is not among
    them. *)
Record OrderedArithmetic {num : Type} {N : Numeric num} : Prop := {
  zero_le_zero : leb zero zero = true;
  zero_lt_le : forall x : num, ltb zero x = true -> leb zero x = true;
  step_le_add : forall x h : num,
    leb zero x = true -> ltb zero h = true -> leb h (add x h) = true;
  zero_le_add : forall x h : num,
    leb zero x = true -> ltb zero h = true -> leb zero (add x h) = true;
  lt_le_trans_zero : forall h x : num,
    ltb zero h = true -> leb h x = true -> ltb zero x = true;
  le_add_pos : forall t x : num,
    leb zero t = true -> ltb zero x = true -> leb t (add t x) = true;
}.

Section Nondecreasing.
Context {num : Type} {N : Numeric num}.

(** No entry is above the next one. *)
Fixpoint nondecreasing (l : list num) : Prop :=
  match l with
  | a :: (b :: _) as l' => leb a b = true /\ nondecreasing l'
  | _ => True
  end.
End Nondecreasing.

Section Invariant.
Context {num : Type} {N : Numeric num}.
Local Open Scope num_scope.

(** The loop invariant: the interval counter is not negative and every
    interval emitted so far is at least [h]. *)
Definition intervals_ok (h : num) (st : num * num * list num) : Prop :=
  let '(_, interval, s) := st in
  (zero <=? interval) = true /\ Forall (fun x => (h <=? x) = true) s.

End Invariant.

(** ** IEEE binary64, the arithmetic of Python floats *)

Module FloatNum.
Local Open Scope float_scope.

Definition float_of_Z (z : Z) : float :=
  match z with
  | Z0 => 0
  | Zpos _ => PrimFloat.of_uint63 (Uint63.of_Z z)
  | Zneg p => - PrimFloat.of_uint63 (Uint63.of_Z (Zpos p))
  end.

(** [int(x)] truncates towards zero. *)
Definition float_to_int (x : float) : result Z :=
  match Prim2SF x with
  | S754_zero _ => Ok 0%Z
  | S754_infinity _ => Raise OverflowError
  | S754_nan => Raise (ValueError "cannot convert float NaN to integer")
  | S754_finite sgn m e =>
      let v := if (0 <=? e)%Z then (Zpos m * 2 ^ e)%Z
               else (Zpos m / 2 ^ (- e))%Z in
      Ok (if sgn then (- v)%Z else v)
  end.

(** [numpy.maximum] hands a NaN on. *)
Definition float_max (x y : float) : float :=
  if PrimFloat.is_nan x then x
  else if PrimFloat.is_nan y then y
  else if x <? y then y else x.

#[export] Instance float_numeric : Numeric float := {
  of_Z := float_of_Z;
  add := PrimFloat.add;
  sub := PrimFloat.sub;
  mul := PrimFloat.mul;
  div := PrimFloat.div;
  opp := PrimFloat.opp;
  ltb := PrimFloat.ltb;
  leb := PrimFloat.leb;
  eqb := PrimFloat.eqb;
  isinf := PrimFloat.is_infinity;
  isreal := fun _ => true;
  nabs := PrimFloat.abs;
  nmax := float_max;
  to_int := float_to_int;
}.

(** [numpy.pi]. *)
Definition pi : float := 0x1.921fb54442d18p+1.

(** [numpy.exp] and [scipy.special.sici(x)[0]] at the arguments the
    examples below reach (correctly rounded values), NaN elsewhere. *)
Definition exp (x : float) : float :=
  if x =? 0 then 1
  else if x =? -1 then 0x1.78b56362cef38p-2
  else nan.

Definition sici_si (x : float) : float :=
  if x =? 1 then 0x1.e465000d0d798p-1
  else if x =? -1 then -0x1.e465000d0d798p-1
  else nan.

(** [numpy.log] of a real: NaN below zero (with a warning, no
    exception) and [-inf] at zero; of the positive arguments those the
    examples below reach are evaluated, NaN stands for the rest. *)
Definition log (x : float) : float :=
  if x <? 0 then nan
  else if x =? 0 then neg_infinity
  else if x =? 1 then 0
  else if x =? 3 then 0x1.193ea7aad030bp+0
  else nan.

(** [scipy.signal.resample] is not evaluated where the examples below
    set [dte = 0] and the encoder never calls it. *)
Definition resample (u : list float) (n : Z) : result (list float) :=
  Raise (ValueError "resample is not evaluated").

(** [scipy.signal.resample] on a constant signal, the only kind the
    examples below resample: the Fourier method gives the constant
    signal of the new length (exactly so for a signal of ones stretched
    by a power of two). *)
Definition resample_constant (u : list float) (n : Z) : result (list float) :=
  match u with
  | x :: xs =>
      if forallb (fun y => y =? x) xs then Ok (repeat x (Z.to_nat n))
      else Raise (ValueError "resample is not evaluated")
  | [] => Raise (ValueError "resample is not evaluated")
  end.

(** Complex numbers are pairs; products and quotients as CPython
    computes them. *)
Definition cfloat : Type := (float * float)%type.

Definition cfloat_mul (a b : cfloat) : cfloat :=
  (fst a * fst b - snd a * snd b, fst a * snd b + snd a * fst b).

Definition cfloat_div (a b : cfloat) : cfloat :=
  let (ar, ai) := a in
  let (br, bi) := b in
  if PrimFloat.abs bi <=? PrimFloat.abs br then
    let ratio := bi / br in
    let denom := br + bi * ratio in
    ((ar + ai * ratio) / denom, (ai - ar * ratio) / denom)
  else if PrimFloat.abs br <=? PrimFloat.abs bi then
    let ratio := br / bi in
    let denom := br * ratio + bi in
    ((ar * ratio + ai) / denom, (ai * ratio - ar) / denom)
  else (nan, nan).

Fixpoint cfloat_pow_nat (x : cfloat) (k : nat) : cfloat :=
  match k with
  | O => (1, 0)
  | S k' => cfloat_mul x (cfloat_pow_nat x k')
  end.

(** [numpy.log] at a complex zero is [-inf] with the angle of the signed
    zero, and NaN at a NaN; the examples below reach it nowhere else. *)
Definition is_neg_zero (x : float) : bool := (x =? 0) && (1 / x <? 0).

Definition cfloat_log (z : cfloat) : cfloat :=
  let (re, im) := z in
  if (re =? 0) && (im =? 0)
  then (neg_infinity,
        if is_neg_zero re then (if is_neg_zero im then - pi else pi) else im)
  else (nan, nan).

(** The complex exponential and the exponential integral are not
    evaluated: NaN stands for their values. *)
Definition cfloat_nan (z : cfloat) : cfloat := (nan, nan).

#[export] Instance float_complex : ComplexOps float cfloat := {
  complex := fun re im => (re, im);
  cof := fun x => (x, 0);
  creal := fst;
  cadd := fun a b => (fst a + fst b, snd a + snd b);
  csub := fun a b => (fst a - fst b, snd a - snd b);
  cmul := cfloat_mul;
  cdiv := cfloat_div;
  copp := fun a => (- fst a, - snd a);
  cconj := fun a => (fst a, - snd a);
  cexp := cfloat_nan;
  clog := cfloat_log;
  cpow := fun x k =>
    if (0 <=? k)%Z then cfloat_pow_nat x (Z.to_nat k)
    else cfloat_div (1, 0) (cfloat_pow_nat x (Z.to_nat (- k)));
}.

(** [mdot] on a chain of matrices: their product, from left to right. *)
Definition mdot_product (l : list (ndarray cfloat))
    : result (list (list cfloat)) :=
  match l with
  | Matrix A :: rest =>
      fold_left
        (fun acc x =>
           P <- acc ;;
           match x with
           | Matrix B => Ok (cdot P B)
           | Scalar _ => Raise (ValueError "mdot is not evaluated")
           end)
        rest (Ok A)
  | _ => Raise (ValueError "mdot is not evaluated")
  end.
End FloatNum.

(** ** The real numbers *)

Module RealNum.
Local Open Scope R_scope.

Definition Rltb (x y : R) : bool := if Rlt_dec x y then true else false.
Definition Rleb (x y : R) : bool := if Rle_dec x y then true else false.
Definition Reqb (x y : R) : bool := if Req_dec_T x y then true else false.

(** Truncation towards zero. *)
Definition Rtrunc (x : R) : Z :=
  if Rle_dec 0 x then Int_part x else (- Int_part (- x))%Z.

(** Exact arithmetic.  This is not the arithmetic the modules run in:
    the reals hold no infinity and no NaN and nothing is rounded.  It
    serves where a statement is about the order or the sign of sums and
    products. *)
#[export] Instance real_numeric : Numeric R := {
  of_Z := IZR;
  add := Rplus;
  sub := Rminus;
  mul := Rmult;
  div := Rdiv;
  opp := Ropp;
  ltb := Rltb;
  leb := Rleb;
  eqb := Reqb;
  isinf := fun _ => false;
  isreal := fun _ => true;
  nabs := Rabs;
  nmax := Rmax;
  to_int := fun x => Ok (Rtrunc x);
}.

(** [scipy.signal.resample] is not evaluated (see [FloatNum.resample]). *)
Definition resample (u : list R) (n : Z) : result (list R) :=
  Raise (ValueError "resample is not evaluated").
End RealNum.

(** ** Rounds of the encoder and the interval counter *)

Section Rounds.
Context {num : Type} {N : Numeric num}.
Local Open Scope num_scope.

(** The value of [last] at line 158: every sample, or every sample but
    one under the trapezoidal rule. *)
Definition encode_rounds (u : list num) (R : num) (quad_method : string) : nat :=
  if isinf R then
    if String.eqb quad_method "rect" then List.length u
    else (List.length u - 1)%nat
  else List.length u.

(** [start + dt + ... + dt], [n] times. *)
Definition elapsed (n : nat) (dt start : num) : num :=
  Nat.iter n (fun x => x + dt) start.

(** What lines 160-163 leave when the spikes fall after [n_1], [n_2],
    ... rounds and [n_out] rounds follow the last one: every interval
    is the step added that many times to the counter as it stood,
    [start] at first and [0.0] after a spike, and so is the counter that
    is left. *)
Fixpoint intervals_after (h start : num) (ns : list nat) (n_out : nat)
    : list num * num :=
  match ns with
  | [] => ([], elapsed n_out h start)
  | n :: ns' =>
      let '(s, interval) := intervals_after h zero ns' n_out in
      (elapsed n h start :: s, interval)
  end.

(** The loop state with the spikes [s0] of an earlier call in front. *)
Definition prepend (s0 : list num) (st : num * num * list num)
    : num * num * list num :=
  let '(y, interval, s) := st in (y, interval, (s0 ++ s)%list).

(** The closures of lines 141 and 153, of the rectangular and of the
    exponential Euler rule, as functions of the signal they close
    over. *)
Definition one_sample_closure (exp : num -> num) (dt b R C : num)
    : list num -> num -> nat -> result num :=
  if isinf R then fun v => compute_y_rect v dt b C
  else fun v => compute_y_leaky exp v dt b R (R * C).
End Rounds.

(** * Properties *)

(** ** The encoder against its reference loop *)

Section EncoderLoop.
Context {num : Type} {N : Numeric num}.
Local Open Scope num_scope.

Variable exp : num -> num.
Variable resample : list num -> Z -> result (list num).

Lemma getitem_app_here (pre : list num) (x : num) (rest : list num) :
  getitem (pre ++ x :: rest) (List.length pre) = Ok x.
Proof.
  unfold getitem. rewrite nth_error_app2 by lia.
  rewrite Nat.sub_diag. reflexivity.
Qed.

Lemma getitem_app_next (pre : list num) (x x1 : num) (rest : list num) :
  getitem (pre ++ x :: x1 :: rest) (List.length pre + 1) = Ok x1.
Proof.
  unfold getitem. rewrite nth_error_app2 by lia.
  replace (List.length pre + 1 - List.length pre)%nat with 1%nat by lia.
  reflexivity.
Qed.

Lemma app_cons_shift (pre : list num) (x : num) (rest : list num) :
  (pre ++ x :: rest = (pre ++ [x]) ++ rest)%list.
Proof. rewrite <- app_assoc. reflexivity. Qed.

Lemma length_snoc (pre : list num) (x : num) :
  List.length (pre ++ [x])%list = S (List.length pre).
Proof. rewrite length_app. simpl. lia. Qed.

(** One round of the source loop, when the closure yields [y']. *)
Lemma encode_body_step (cy : num -> nat -> result num) (dt d y itv y' : num)
    (s : list num) (i : nat) :
  cy y i = Ok y' ->
  encode_body cy dt d (y, itv, s) i =
  if y' >=? d then Ok (zero, zero, (s ++ [itv + dt])%list)
  else Ok (y', itv + dt, s).
Proof. intros H. unfold encode_body. rewrite H. reflexivity. Qed.

(** After one round at index [length pre] the loop goes on at
    [length (pre ++ [x])], with the state the reference loop has. *)
Ltac next_round IH pre x y' itv dt s :=
  rewrite (app_cons_shift pre x); rewrite <- (length_snoc pre x);
  match goal with
  | |- context [if ?c then _ else _] => destruct c
  end; cbn [bind];
  [ destruct (IH (pre ++ [x])%list zero zero (s ++ [itv + dt])%list)
      as [y2 [itv2 E]];
    exists y2, itv2; rewrite E; rewrite <- app_assoc; reflexivity
  | destruct (IH (pre ++ [x])%list y' (itv + dt) s) as [y2 [itv2 E]];
    exists y2, itv2; exact E ].

(** The index loop with a closure that reads one sample per round walks
    the samples [u] as the reference loop does; what lies behind them is
    not read. *)
Lemma for_range_pointwise (rule : quadrature) (dt b d R C : num)
    (cy : list num -> num -> nat -> result num) :
  (forall pre x rest y,
      exists y', cy (pre ++ x :: rest)%list y (List.length pre) = Ok y' /\
                 forall rest', integrate exp rule dt b R C y x rest' = Some y') ->
  forall (u post pre : list num) (y itv : num) (s : list num),
  exists y' itv',
    for_range (encode_body (cy (pre ++ u ++ post)%list) dt d)
      (List.length pre) (List.length u) (y, itv, s) =
    Ok (y', itv', (s ++ reference_loop exp rule dt b d R C u y itv)%list).
Proof.
  intros Hcy u post. induction u as [|x rest IH]; intros pre y itv s.
  - exists y, itv. simpl. rewrite app_nil_r. reflexivity.
  - destruct (Hcy pre x (rest ++ post)%list y) as [y' [Hy' Hint]].
    cbn [List.length for_range reference_loop app]. rewrite (Hint rest).
    rewrite encode_body_step with (y' := y') by exact Hy'.
    next_round IH pre x y' itv dt s.
Qed.

(** The trapezoidal closure reads two samples, and the loop over
    [x :: rest] stops one round early. *)
Lemma for_range_trapz (dt b d R C : num) (post : list num) :
  forall (rest pre : list num) (x y itv : num) (s : list num),
  exists y' itv',
    for_range
      (encode_body (compute_y_trapz (pre ++ (x :: rest) ++ post)%list dt b C) dt d)
      (List.length pre) (List.length rest) (y, itv, s) =
    Ok (y', itv',
        (s ++ reference_loop exp Trapezoidal dt b d R C (x :: rest) y itv)%list).
Proof.
  induction rest as [|x1 rest IH]; intros pre x y itv s.
  - exists y, itv. simpl. rewrite app_nil_r. reflexivity.
  - cbn [List.length for_range reference_loop integrate app].
    assert (Hy : compute_y_trapz (pre ++ x :: x1 :: rest ++ post)%list dt b C y
                   (List.length pre) =
                 Ok (y + dt * (b + (x + x1) / of_Z 2) / C)).
    { unfold compute_y_trapz.
      rewrite getitem_app_here, getitem_app_next. reflexivity. }
    rewrite encode_body_step with (1 := Hy).
    specialize (fun pre' => IH pre' x1). cbn [app] in IH.
    next_round IH pre x (y + dt * (b + (x + x1) / of_Z 2) / C) itv dt s.
Qed.

Lemma compute_y_rect_integrate (dt b R C : num) :
  forall pre x rest y,
    exists y', compute_y_rect (pre ++ x :: rest)%list dt b C y (List.length pre)
               = Ok y' /\
               forall rest', integrate exp Rectangular dt b R C y x rest' = Some y'.
Proof.
  intros. eexists. unfold compute_y_rect. rewrite getitem_app_here.
  split; reflexivity.
Qed.

Lemma compute_y_leaky_integrate (dt b R C : num) :
  eqb (R * C) zero = false ->
  forall pre x rest y,
    exists y', compute_y_leaky exp (pre ++ x :: rest)%list dt b R (R * C) y
                 (List.length pre) = Ok y' /\
               forall rest',
                 integrate exp ExponentialEuler dt b R C y x rest' = Some y'.
Proof.
  intros HRC. intros. eexists. unfold compute_y_leaky, pydiv.
  rewrite HRC, getitem_app_here. split; reflexivity.
Qed.

(** Past the tests on [dte], the body of [iaf_encode_full] is the
    selection of the rule and the loop, on the samples [u'] and at the
    step [dt'] that lines 130-132 leave; the number of rounds comes from
    the length of the signal as it was passed. *)
Lemma iaf_encode_full_loop (x : num) (u u' : list num)
    (dt dt' b d R C dte y interval : num) (quad_method : string) :
  (dte >? dt) = false -> (dte <? zero) = false ->
  encode_resample resample (x :: u) dt dte = Ok (u', dt') ->
  iaf_encode_full exp resample (x :: u) dt b d R C dte y interval quad_method =
  cl <- choose_compute_y exp u' (S (List.length u)) dt' b R C quad_method ;;
  let '(compute_y, last) := cl in
  st <- for_range (encode_body compute_y dt' d) 0 last (y, interval, []) ;;
  let '(y, interval, s) := st in
  Ok (mkState s dt' y interval).
Proof.
  intros H1 H2 H3. unfold iaf_encode_full.
  cbn [List.length Nat.eqb]. rewrite H1, H2, H3. reflexivity.
Qed.

(** Let [dte] be admissible (neither above [dt] nor negative) and let
    [u'], [dt'] be the samples and the step the loop runs on: [u] and
    [dt] themselves when [dte = 0], the resampled signal and [dte]
    otherwise.  The number of rounds was fixed before the resampling, so
    the loop is the reference loop on the first [len(u)] samples of
    [u'] only.  The leaky rule needs [R*C != 0], or [-dt/RC] raises. *)
Lemma iaf_encode_prefix_loop (u u' : list num)
    (dt dt' b d R C dte y interval : num) (quad_method : string) :
  (dte >? dt) = false -> (dte <? zero) = false ->
  encode_resample resample u dt dte = Ok (u', dt') ->
  (List.length u <= List.length u')%nat ->
  isinf R = true \/ eqb (R * C) zero = false ->
  iaf_encode exp resample u dt b d R C dte y interval quad_method =
  encode_reference exp (firstn (List.length u) u') dt' b d R C y interval
    quad_method.
Proof.
  intros H1 H2 H3 Hlen HRC. destruct u as [|x u].
  - reflexivity.
  - unfold iaf_encode.
    rewrite (iaf_encode_full_loop x u u' dt dt' b d R C dte y interval
               quad_method H1 H2 H3).
    set (nu := S (List.length u)).
    assert (Hsplit : u' = (firstn nu u' ++ skipn nu u')%list)
      by (symmetry; apply firstn_skipn).
    assert (Hnu : List.length (firstn nu u') = nu)
      by (apply firstn_length_le; exact Hlen).
    change (List.length (x :: u)) with nu.
    destruct (firstn nu u') as [|x' w] eqn:Hw; [discriminate Hnu |].
    generalize (skipn nu u') Hsplit. intros post Hu'. clear Hw Hsplit.
    cbn [List.length] in Hnu. unfold nu in Hnu.
    assert (Hrounds : List.length w = List.length u) by lia. clear Hnu Hlen H3.
    unfold encode_reference, select_quadrature, choose_compute_y, fmap.
    unfold nu. rewrite <- Hrounds.
    replace (S (List.length w) - 1)%nat with (List.length w) by lia.
    rewrite Hu'. destruct (isinf R) eqn:Hinf.
    + destruct (String.eqb quad_method "rect").
      * cbn [bind].
        destruct (for_range_pointwise Rectangular dt' b d R C
                    (fun v => compute_y_rect v dt' b C)
                    (compute_y_rect_integrate dt' b R C)
                    (x' :: w) post [] y interval []) as [y' [itv' E]].
        cbn [List.length app] in E. cbn [app]. rewrite E. reflexivity.
      * destruct (String.eqb quad_method "trapz").
        -- cbn [bind].
           destruct (for_range_trapz dt' b d R C post w [] x' y interval [])
             as [y' [itv' E]].
           cbn [List.length app] in E. cbn [app]. rewrite E. reflexivity.
        -- reflexivity.
    + cbn [bind]. destruct HRC as [HRC | HRC]; [discriminate |].
      destruct (for_range_pointwise ExponentialEuler dt' b d R C
                  (fun v => compute_y_leaky exp v dt' b R (R * C))
                  (compute_y_leaky_integrate dt' b R C HRC)
                  (x' :: w) post [] y interval []) as [y' [itv' E]].
      cbn [List.length app] in E. cbn [app]. rewrite E. reflexivity.
Qed.

(** X16.  Without resampling ([dte = 0]) the encoder is the reference
    loop of the specification on the signal [u] at the step [dt]: the
    rectangular rule over every sample, the trapezoidal rule over every
    sample but the last, the exponential Euler rule over every sample
    when [R] is finite (and [R*C] is not zero); the interval counter
    grows by [dt] per step, and a step with [y >= d] emits the interval
    and resets both; the empty signal gives the empty train. *)
Theorem iaf_encode_reference_loop_plain (u : list num)
    (dt b d R C dte y interval : num) (quad_method : string) :
  (dte >? dt) = false -> (dte <? zero) = false -> neb dte zero = false ->
  isinf R = true \/ eqb (R * C) zero = false ->
  iaf_encode exp resample u dt b d R C dte y interval quad_method =
  encode_reference exp u dt b d R C y interval quad_method.
Proof.
  intros H1 H2 H3 HRC.
  rewrite (iaf_encode_prefix_loop u u dt dt b d R C dte y interval quad_method
             H1 H2).
  - rewrite firstn_all. reflexivity.
  - unfold encode_resample. rewrite H3. reflexivity.
  - apply Nat.le_refl.
  - exact HRC.
Qed.

End EncoderLoop.

(** ** The encoder's errors *)

Section EncoderErrors.
Context {num : Type} {N : Numeric num}.
Local Open Scope num_scope.

Variable exp : num -> num.
Variable resample : list num -> Z -> result (list num).

(** C8, amended.  On a signal with at least one sample, a [dte] above
    [dt] or below zero makes the encoder raise one of the two resolution
    errors, and no spike train comes back. *)
Theorem iaf_encode_resolution_error (x : num) (u : list num)
    (dt b d R C dte y interval : num) (quad_method : string) :
  (dte >? dt) = true \/ (dte <? zero) = true ->
  exists e : exn,
    iaf_encode exp resample (x :: u) dt b d R C dte y interval quad_method
    = Raise e /\ ResolutionError e.
Proof.
  intros H. unfold iaf_encode, iaf_encode_full, fmap.
  cbn [List.length Nat.eqb].
  destruct (dte >? dt) eqn:Hgt.
  - exists ResolutionTooCoarse. split; [reflexivity | left; reflexivity].
  - destruct H as [H | H]; [discriminate |]. rewrite H.
    exists ResolutionNegative. split; [reflexivity | right; reflexivity].
Qed.

(** The empty signal is answered before [dte] is looked at. *)
Lemma iaf_encode_empty (dt b d R C dte y interval : num) (quad_method : string) :
  iaf_encode exp resample [] dt b d R C dte y interval quad_method = Ok [].
Proof. reflexivity. Qed.

(** With a finite [R] the tag is never read. *)
Lemma iaf_encode_leaky_ignores_method (u : list num)
    (dt b d R C dte y interval : num) (m m' : string) :
  isinf R = false ->
  iaf_encode exp resample u dt b d R C dte y interval m =
  iaf_encode exp resample u dt b d R C dte y interval m'.
Proof.
  intros Hinf. unfold iaf_encode, iaf_encode_full, choose_compute_y.
  rewrite Hinf. reflexivity.
Qed.

(** C7, amended.  Take a signal with at least one sample, an admissible
    [dte] for which lines 130-132 return (they always do when
    [dte = 0]; otherwise [int(dt/dte)] and [resample] must return), and
    a tag other than ['rect'] and ['trapz'].  With [R] infinite the
    encoder raises "unrecognized quadrature method"; with [R] finite
    the tag is not read, and the call does what it does with any other
    tag. *)
Theorem iaf_encode_method_tag (x : num) (u : list num)
    (dt b d R C dte y interval : num) (quad_method : string)
    (u' : list num) (dt' : num) :
  (dte >? dt) = false -> (dte <? zero) = false ->
  encode_resample resample (x :: u) dt dte = Ok (u', dt') ->
  String.eqb quad_method "rect" = false ->
  String.eqb quad_method "trapz" = false ->
  if isinf R
  then iaf_encode exp resample (x :: u) dt b d R C dte y interval quad_method
       = Raise UnrecognizedQuadratureMethod
  else forall m' : string,
         iaf_encode exp resample (x :: u) dt b d R C dte y interval quad_method
         = iaf_encode exp resample (x :: u) dt b d R C dte y interval m'.
Proof.
  intros H1 H2 Hres Hrect Htrapz. destruct (isinf R) eqn:Hinf.
  - unfold iaf_encode, iaf_encode_full, fmap.
    cbn [List.length Nat.eqb]. rewrite H1, H2, Hres. cbn [bind].
    unfold choose_compute_y. rewrite Hinf, Hrect, Htrapz. reflexivity.
  - intros m'. apply iaf_encode_leaky_ignores_method. exact Hinf.
Qed.

End EncoderErrors.

(** ** Spike intervals are at least one step long *)

Section EncoderIntervals.
Context {num : Type} {N : Numeric num}.
Local Open Scope num_scope.

Variable exp : num -> num.
Variable resample : list num -> Z -> result (list num).
Hypothesis laws : OrderedArithmetic (N := N).

Lemma encode_body_intervals_ok (cy : num -> nat -> result num) (h d : num)
    (st st' : num * num * list num) (i : nat) :
  (zero <? h) = true ->
  intervals_ok h st ->
  encode_body cy h d st i = Ok st' ->
  intervals_ok h st'.
Proof.
  intros Hh Hst Hbody. destruct st as [[y itv] s]. destruct Hst as [Hitv Hs].
  unfold encode_body in Hbody.
  destruct (cy y i) as [y'|e]; cbn [bind] in Hbody; [|discriminate].
  destruct (y' >=? d); inversion Hbody; subst; clear Hbody; split.
  - apply (zero_le_zero laws).
  - apply Forall_app. split; [exact Hs |].
    constructor; [|constructor]. apply (step_le_add laws); assumption.
  - apply (zero_le_add laws); assumption.
  - exact Hs.
Qed.

Lemma for_range_intervals_ok (cy : num -> nat -> result num) (h d : num) :
  (zero <? h) = true ->
  forall (n i : nat) (st st' : num * num * list num),
    intervals_ok h st ->
    for_range (encode_body cy h d) i n st = Ok st' ->
    intervals_ok h st'.
Proof.
  intros Hh n. induction n as [|n IH]; intros i st st' Hst Hrun.
  - inversion Hrun. subst. exact Hst.
  - cbn [for_range] in Hrun.
    destruct (encode_body cy h d st i) as [st1|e] eqn:Hbody;
      cbn [bind] in Hrun; [|discriminate].
    apply (IH (S i) st1 st'); [|exact Hrun].
    eapply encode_body_intervals_ok; [exact Hh | exact Hst | exact Hbody].
Qed.

(** Partial sums of positive terms do not fall. *)
Lemma cumsum_from_nondecreasing (s : list num) :
  Forall (fun x => (zero <? x) = true) s ->
  forall acc : num, (zero <=? acc) = true ->
    nondecreasing (acc :: cumsum_from acc s).
Proof.
  induction 1 as [|x s Hx Hs IH]; intros acc Hacc.
  - exact I.
  - cbn [cumsum_from nondecreasing]. split.
    + apply (le_add_pos laws); assumption.
    + apply IH. apply (zero_le_add laws); assumption.
Qed.

Lemma cumsum_nondecreasing (s : list num) :
  Forall (fun x => (zero <? x) = true) s -> nondecreasing (cumsum s).
Proof.
  intros H. destruct H as [|x s Hx Hs]; [exact I |].
  apply cumsum_from_nondecreasing; [exact Hs |].
  apply (zero_lt_le laws). exact Hx.
Qed.


End EncoderIntervals.

(** ** The recoverability check *)

Section Recoverable.
Context {num : Type} {N : Numeric num}.
Local Open Scope num_scope.

Variable log : num -> num.
Variable pi : num.

(** [numpy.max] has no value on an empty signal. *)
Lemma iaf_recoverable_empty (bw b d R C : num) :
  iaf_recoverable log pi [] bw b d R C = Raise EmptyReduction.
Proof. reflexivity. Qed.

End Recoverable.

(** ** The order of the real numbers *)

Section RealOrder.
Import RealNum.
Local Open Scope R_scope.

Lemma Rleb_true (x y : R) : Rleb x y = true <-> x <= y.
Proof. unfold Rleb. destruct (Rle_dec x y); split; intros; try lra; discriminate. Qed.

Lemma Rleb_false (x y : R) : Rleb x y = false <-> y < x.
Proof. unfold Rleb. destruct (Rle_dec x y); split; intros; try lra; discriminate. Qed.

Lemma Rltb_true (x y : R) : Rltb x y = true <-> x < y.
Proof. unfold Rltb. destruct (Rlt_dec x y); split; intros; try lra; discriminate. Qed.

Lemma Rltb_false (x y : R) : Rltb x y = false <-> y <= x.
Proof. unfold Rltb. destruct (Rlt_dec x y); split; intros; try lra; discriminate. Qed.

End RealOrder.

(** ** The decoders *)

Section DecoderTheory.
Context {num cnum : Type} {N : Numeric num} {CN : ComplexOps num cnum}.
Local Open Scope num_scope.

Variable exp : num -> num.
Variable pi : num.
Variable sici_si : num -> num.
Variable ei : cnum -> cnum.
Variable sinc : num -> num.
Variable arange : num -> num -> num -> list num.
Variable pinv : list (list num) -> num -> result (list (list num)).
Variable cpinv : list (list cnum) -> num -> result (list (list cnum)).
Variable mdot : list (ndarray cnum) -> result (list (list cnum)).
Variable bpa : list (list cnum) -> list (list cnum) -> result (list (list cnum)).

(** *** Quanta *)

(** C2.  On a train of at least two intervals the dense, the fast and
    the Vandermonde decoder compute the same quanta, [C*d - b*s[1:]] for
    an infinite [R] and [C*(d + b*R*(exp(-s[1:]/(R*C)) - 1))] for a finite
    one, and each hands exactly this vector to its solver. *)
Theorem decoders_share_quanta (s0 s1 : num) (s' : list num)
    (dur dt bw M b d R C : num) :
  let s := s0 :: s1 :: s' in
  let q := quanta exp s b d R C in
  iaf_decode_q exp s b d R C = q /\
  iaf_decode_fast_q exp s b d R C = q /\
  iaf_decode_vander_q exp s b d R C = q /\
  iaf_decode exp pi sici_si ei sinc arange pinv s dur dt bw b d R C =
    iaf_decode_solve pi sinc arange pinv s dur dt bw
      (iaf_decode_G exp pi sici_si ei s bw R C) q /\
  iaf_decode_fast exp pi arange cpinv mdot s dur dt bw M b d R C =
    iaf_decode_fast_solve pi arange cpinv mdot s dur dt bw M q /\
  iaf_decode_vander exp arange mdot bpa s dur dt bw b d R C =
    (P <- vander_P s ;;
     rhs <- mdot [Matrix (vander_D s bw); Matrix P; Matrix (column (map cof q))] ;;
     d <- bpa (vander_V s bw) rhs ;;
     vander_reconstruct arange s dur dt bw d).
Proof.
  intros s q.
  assert (Hq : iaf_decode_q exp s b d R C = q) by reflexivity.
  assert (Hf : iaf_decode_fast_q exp s b d R C = q) by reflexivity.
  assert (Hv : iaf_decode_vander_q exp s b d R C = q) by reflexivity.
  split; [exact Hq |]. split; [exact Hf |]. split; [exact Hv |].
  split; [| split].
  - unfold iaf_decode. subst s. cbn [List.length Nat.ltb Nat.leb].
    rewrite Hq. reflexivity.
  - unfold iaf_decode_fast. subst s. cbn [List.length Nat.ltb Nat.leb].
    rewrite Hf. reflexivity.
  - unfold iaf_decode_vander. rewrite Hv. reflexivity.
Qed.

(** *** Trains too short to decode *)

(** The dense and the fast decoder refuse a train of fewer than two
    intervals. *)
Lemma iaf_decode_insufficient (s : list num) (dur dt bw b d R C : num) :
  (List.length s < 2)%nat ->
  iaf_decode exp pi sici_si ei sinc arange pinv s dur dt bw b d R C
  = Raise InsufficientSpikes.
Proof.
  intros H. unfold iaf_decode.
  destruct (Nat.ltb_spec (List.length s) 2); [reflexivity | lia].
Qed.

Lemma iaf_decode_fast_insufficient (s : list num) (dur dt bw M b d R C : num) :
  (List.length s < 2)%nat ->
  iaf_decode_fast exp pi arange cpinv mdot s dur dt bw M b d R C
  = Raise InsufficientSpikes.
Proof.
  intros H. unfold iaf_decode_fast.
  destruct (Nat.ltb_spec (List.length s) 2); [reflexivity | lia].
Qed.

(** C3, at a train of one interval.  The Vandermonde decoder and the
    population decoder test no length: the first hands an empty system
    to [bpa], the second an empty matrix to [pinv], and each returns the
    all-zero signal when the solver returns. *)
Theorem short_train_not_refused (s0 dur dt bw b d R C : num) :
  iaf_decode_vander exp arange mdot bpa [s0] dur dt bw b d R C =
    (rhs <- mdot [Matrix []; Matrix []; Matrix []] ;;
     _ <- bpa [] rhs ;;
     Ok (map (fun _ => zero) (arange zero dur dt))) /\
  iaf_decode_pop exp pi sici_si ei sinc arange pinv [[s0]] dur dt bw [b] [d] [R] [C] =
    (_ <- pinv [] pinv_rcond ;;
     Ok (map (fun _ => zero) (arange zero dur dt))).
Proof.
  split.
  - unfold iaf_decode_vander, vander_P, vander_V, vander_D, vander_nodes,
      vander_reconstruct, vander_ns, vander_n, iaf_decode_vander_q.
    cbn. destruct (isinf R); reflexivity.
  - unfold iaf_decode_pop, iaf_decode_pop_system, pop_rows, pop_G_block,
      pop_quanta.
    cbn. destruct (isinf R); cbn; reflexivity.
Qed.

(** *** The Vandermonde system *)

Lemma cumsum_from_length (s : list num) (acc : num) :
  List.length (cumsum_from acc s) = List.length s.
Proof.
  revert acc. induction s as [|x s IH]; intros acc; [reflexivity |].
  cbn [cumsum_from List.length]. rewrite IH. reflexivity.
Qed.

Lemma cumsum_length (s : list num) : List.length (cumsum s) = List.length s.
Proof.
  destruct s as [|x s]; [reflexivity |].
  cbn [cumsum List.length]. rewrite cumsum_from_length. reflexivity.
Qed.

Lemma removelast_length {A : Type} (l : list A) :
  List.length (removelast l) = (List.length l - 1)%nat.
Proof.
  induction l as [|x l IH]; [reflexivity |].
  destruct l as [|x' l]; [reflexivity |].
  change (removelast (x :: x' :: l)) with (x :: removelast (x' :: l)).
  cbn [List.length] in *. rewrite IH. lia.
Qed.

Lemma vander_nodes_length (s : list num) (bw : num) :
  List.length (vander_nodes s bw) = (List.length s - 1)%nat.
Proof.
  unfold vander_nodes. rewrite length_map, removelast_length, cumsum_length.
  reflexivity.
Qed.

(** After [fliplr], column [k] of [vander(z)] holds the [k]-th powers. *)
Lemma fliplr_vander_entry (z : list cnum) (i k : nat) :
  (i < List.length z)%nat -> (k < List.length z)%nat ->
  nth k (nth i (fliplr (vander z)) []) (cZ 0) =
  cpow (nth i z (cZ 0)) (Z.of_nat k).
Proof.
  intros Hi Hk. unfold fliplr, vander.
  set (n := List.length z).
  set (row := fun x : cnum =>
                map (fun c : nat => cpow x (Z.of_nat n - Z.of_nat c - 1)) (seq 0 n)).
  rewrite (nth_indep _ [] (rev (row (cZ 0))))
    by (rewrite !length_map; exact Hi).
  rewrite (map_nth (@rev cnum)).
  rewrite (map_nth row). unfold row.
  rewrite rev_nth by (rewrite length_map, length_seq; exact Hk).
  rewrite length_map, length_seq.
  rewrite (nth_indep _ (cZ 0)
             (cpow (nth i z (cZ 0)) (Z.of_nat n - Z.of_nat 0 - 1)))
    by (rewrite length_map, length_seq; lia).
  rewrite (map_nth (fun c : nat =>
             cpow (nth i z (cZ 0)) (Z.of_nat n - Z.of_nat c - 1))).
  rewrite seq_nth by lia.
  f_equal. lia.
Qed.

Lemma fliplr_vander_shape (z : list cnum) :
  List.length (fliplr (vander z)) = List.length z /\
  Forall (fun row => List.length row = List.length z) (fliplr (vander z)).
Proof.
  unfold fliplr, vander. split.
  - rewrite !length_map. reflexivity.
  - apply Forall_forall. intros row Hrow.
    apply in_map_iff in Hrow. destruct Hrow as [r [Hr Hin]]. subst row.
    apply in_map_iff in Hin. destruct Hin as [x [Hx _]]. subst r.
    rewrite length_rev, length_map, length_seq. reflexivity.
Qed.

(** On the empty train [ns = -1], and numpy refuses the shape of [P]. *)
Lemma vander_empty_train (dur dt bw b d k sgn R C : num) :
  asdm_decode_vander arange mdot bpa [] dur dt bw b d k sgn
  = Raise NegativeDimensions /\
  asdm_decode_vander_ins arange mdot bpa [] dur dt bw b sgn
  = Raise NegativeDimensions /\
  iaf_decode_vander exp arange mdot bpa [] dur dt bw b d R C
  = Raise NegativeDimensions.
Proof. repeat split. Qed.

(** A row of powers read backwards. *)
Lemma rev_map_seq {A : Type} (h : nat -> A) (n : nat) :
  rev (map h (seq 0 n)) = map (fun c => h (n - 1 - c)%nat) (seq 0 n).
Proof.
  induction n as [|n IH]; [reflexivity |].
  assert (E : rev (map h (seq 0 (S n))) = h n :: rev (map h (seq 0 n)))
    by (rewrite seq_S, map_app, rev_app_distr; reflexivity).
  rewrite E, IH. cbn [seq map]. f_equal; [f_equal; lia |].
  rewrite <- seq_shift, map_map. apply map_ext. intros c. f_equal. lia.
Qed.

(** [fliplr(vander(z))] is the matrix of the powers [z_i ** c],
    [c = 0 .. len(z)-1]. *)
Lemma fliplr_vander_powers (z : list cnum) :
  fliplr (vander z)
  = map (fun z_i => map (fun c => cpow z_i (Z.of_nat c)) (seq 0 (List.length z))) z.
Proof.
  unfold fliplr, vander. rewrite map_map. apply map_ext. intros x.
  rewrite rev_map_seq. apply map_ext_in. intros c Hc. apply in_seq in Hc.
  f_equal. lia.
Qed.


End DecoderTheory.

(** * The functions on concrete inputs *)

(** ** NaN in binary64 *)

Section FloatNaN.
Local Open Scope float_scope.

Lemma SFeqb_refl_nan (p : spec_float) : SFeqb p p = false -> p = S754_nan.
Proof.
  destruct p as [sg|sg| |sg m e]; unfold SFeqb, SFcompare; try discriminate;
    try reflexivity.
  - destruct sg; discriminate.
  - rewrite Z.compare_refl.
    destruct sg; rewrite Pos.compare_cont_refl; discriminate.
Qed.

Lemma is_nan_Prim2SF (x : float) :
  PrimFloat.is_nan x = true <-> Prim2SF x = S754_nan.
Proof.
  unfold PrimFloat.is_nan. rewrite eqb_spec. split.
  - intros H. apply SFeqb_refl_nan.
    destruct (SFeqb _ _); [discriminate | reflexivity].
  - intros H. rewrite H. reflexivity.
Qed.

Lemma nan_mul_l (x y : float) :
  PrimFloat.is_nan x = true -> PrimFloat.is_nan (x * y) = true.
Proof.
  rewrite !is_nan_Prim2SF, mul_spec. intros H. rewrite H. reflexivity.
Qed.

Lemma nan_mul_r (x y : float) :
  PrimFloat.is_nan y = true -> PrimFloat.is_nan (x * y) = true.
Proof.
  rewrite !is_nan_Prim2SF, mul_spec. intros H. rewrite H.
  destruct (Prim2SF x); reflexivity.
Qed.

Lemma nan_div_l (x y : float) :
  PrimFloat.is_nan x = true -> PrimFloat.is_nan (x / y) = true.
Proof.
  rewrite !is_nan_Prim2SF, div_spec. intros H. rewrite H. reflexivity.
Qed.

(** No number is below a NaN. *)
Lemma nan_leb_r (x y : float) :
  PrimFloat.is_nan y = true -> (x <=? y) = false.
Proof.
  rewrite is_nan_Prim2SF, leb_spec. intros H. rewrite H.
  unfold SFleb, SFcompare.
  destruct (Prim2SF x) as [sg|sg| |sg m e]; try reflexivity;
    destruct sg; reflexivity.
Qed.

End FloatNaN.

(** ** In binary64 *)

Section FloatExamples.
Import FloatNum.
Local Open Scope float_scope.

(** The trapezoidal rule on four samples: [y] reaches [1], then [2 >= 1.5]
    after two steps, then [1]; the fourth sample is only looked ahead
    at. *)
Lemma iaf_encode_reference_loop_plain_witness :
  iaf_encode FloatNum.exp FloatNum.resample [1; 1; 1; 1] 1 0 1.5 infinity 1 0 0 0 "trapz"
  = encode_reference FloatNum.exp [1; 1; 1; 1] 1 0 1.5 infinity 1 0 0 "trapz" /\
  encode_reference FloatNum.exp [1; 1; 1; 1] 1 0 1.5 infinity 1 0 0 "trapz" = Ok [2].
Proof.
  split.
  - apply (iaf_encode_reference_loop_plain FloatNum.exp FloatNum.resample
             [1; 1; 1; 1] 1 0 1.5 infinity 1 0 0 0 "trapz");
      try reflexivity.
    left. reflexivity.
  - reflexivity.
Defined.

(** C1, where a resampling is asked for.  Two samples of value [1] at
    [dt = 1], encoded at [dte = 0.5] with the rectangular rule and the
    threshold [1]: the signal is resampled to four samples, but the
    number of rounds was read before, and the loop stops after two of
    them with the one interval [1].  The reference loop gives two
    intervals, on the resampled signal at the step [0.5] and on the
    signal as passed at the step [1] alike. *)
Theorem iaf_encode_resampled_stops_early :
  encode_resample resample_constant [1; 1] 1 0.5 = Ok ([1; 1; 1; 1], 0.5) /\
  iaf_encode FloatNum.exp resample_constant [1; 1] 1 0 1 infinity 1 0.5 0 0 "rect"
  = Ok [1] /\
  encode_reference FloatNum.exp [1; 1; 1; 1] 0.5 0 1 infinity 1 0 0 "rect"
  = Ok [1; 1] /\
  encode_reference FloatNum.exp [1; 1] 1 0 1 infinity 1 0 0 "rect"
  = Ok [1; 1].
Proof.
  split; [reflexivity |]. split; [reflexivity |]. split; reflexivity.
Qed.

(** C8 as stated fails on the empty signal: [dte = 2] exceeds [dt = 1],
    and the (empty) spike train is returned all the same. *)
Lemma iaf_encode_empty_ignores_dte :
  (2 >? 1)%num = true /\
  iaf_encode FloatNum.exp FloatNum.resample [] 1 1 0.5 infinity 1 2 0 0 "trapz" = Ok [].
Proof. split; reflexivity. Qed.

Lemma iaf_encode_resolution_error_witness :
  exists e : exn,
    iaf_encode FloatNum.exp FloatNum.resample [1] 1 1 0.5 infinity 1 2 0 0 "trapz"
    = Raise e /\ ResolutionError e.
Proof.
  apply iaf_encode_resolution_error. left. reflexivity.
Defined.

(** C7 as stated fails for a finite [R]: with [R = 1] the tag
    ['simpson'] is not refused; the exponential Euler rule gives
    [y = 1 - exp(-1)], above [d = 0.5], and the interval [1] is
    returned. *)
Lemma iaf_encode_leaky_accepts_any_method :
  isinf 1 = false /\
  iaf_encode FloatNum.exp FloatNum.resample [0] 1 1 0.5 1 1 0 0 0 "simpson" = Ok [1].
Proof. split; reflexivity. Qed.

(** The tag ['simpson'] at [dte = 0]: refused with [R] infinite, and with
    [R = 1] as good as ['trapz']. *)
Lemma iaf_encode_method_tag_witness :
  iaf_encode FloatNum.exp FloatNum.resample [0] 1 1 0.5 infinity 1 0 0 0 "simpson"
  = Raise UnrecognizedQuadratureMethod /\
  iaf_encode FloatNum.exp FloatNum.resample [0] 1 1 0.5 1 1 0 0 0 "simpson"
  = iaf_encode FloatNum.exp FloatNum.resample [0] 1 1 0.5 1 1 0 0 0 "trapz".
Proof.
  split.
  - exact (iaf_encode_method_tag FloatNum.exp FloatNum.resample 0 []
             1 1 0.5 infinity 1 0 0 0 "simpson" [0] 1
             eq_refl eq_refl eq_refl eq_refl eq_refl).
  - exact (iaf_encode_method_tag FloatNum.exp FloatNum.resample 0 []
             1 1 0.5 1 1 0 0 0 "simpson" [0] 1
             eq_refl eq_refl eq_refl eq_refl eq_refl "trapz"%string).
Defined.

(** Where lines 130-132 do not return, the tag is not reached: with the
    smallest positive [dte] the quotient [dt/dte] is infinite and
    [int()] raises. *)
Lemma iaf_encode_overflow_before_tag :
  (0x1p-1074 >? 1)%num = false /\ (0x1p-1074 <? zero)%num = false /\
  iaf_encode FloatNum.exp FloatNum.resample [0] 1 1 0.5 infinity 1 0x1p-1074 0 0
    "simpson"
  = Raise OverflowError.
Proof. split; [reflexivity |]. split; reflexivity. Qed.


(** C5.  In binary64 the rate [r] is never "not real": where the
    argument of the logarithm is negative, [numpy.log] returns NaN,
    [r] is NaN, [isreal(r)] holds and the comparison [r >= (1-e)/(1+e)]
    is false, so that the check returns [True]. *)
Theorem iaf_recoverable_nan_rate (log : float -> float) (pi : float)
    (x : float) (u : list float) (bw b d R C : float) :
  let c := fold_left nmax (map nabs u) (nabs x) in
  let r := (R * C * log (of_Z 1 - d / (d - (b - c) * R)) * bw / pi)%num in
  (c >=? b)%num = false ->
  PrimFloat.is_nan (log (of_Z 1 - d / (d - (b - c) * R))%num) = true ->
  PrimFloat.is_nan r = true /\
  iaf_recoverable log pi (x :: u) bw b d R C = Ok true.
Proof.
  intros c r Hc Hnan.
  assert (Hr : PrimFloat.is_nan r = true).
  { unfold r. cbn [mul div float_numeric].
    apply nan_div_l, nan_mul_l, nan_mul_r. exact Hnan. }
  split; [exact Hr |].
  unfold iaf_recoverable, amax. cbn [map bind]. fold c. rewrite Hc.
  fold r. cbn [isreal float_numeric negb].
  unfold geb. cbn [leb float_numeric]. rewrite (nan_leb_r _ r Hr). reflexivity.
Qed.

(** A peak of [0.5] under the bias [1], [d = R = C = bw = 1]: the
    logarithm is taken at [1 - 1/(1 - 0.5) = -1]. *)
Lemma iaf_recoverable_nan_rate_witness :
  PrimFloat.is_nan (1 * 1 * FloatNum.log (-1) * 1 / FloatNum.pi) = true /\
  iaf_recoverable FloatNum.log FloatNum.pi [0.5] 1 1 1 1 1 = Ok true.
Proof.
  exact (iaf_recoverable_nan_rate FloatNum.log FloatNum.pi 0.5 [] 1 1 1 1 1
           eq_refl eq_refl).
Defined.

(** C6.  The check is not monotone in the bias.  On a signal of peak
    [0.5], with [d = R = C = bw = 1]: at [b = 1] the rate is NaN and the
    check returns [True]; at the larger bias [b = 2] the rate is
    [log(3)/pi], above the bound [0.2], and the check raises. *)
Theorem iaf_recoverable_not_monotone :
  iaf_recoverable FloatNum.log FloatNum.pi [0.5] 1 1 1 1 1 = Ok true /\
  (1 <? 2)%num = true /\
  iaf_recoverable FloatNum.log FloatNum.pi [0.5] 1 2 1 1 1
  = Raise ReconstructionConditionViolated.
Proof. split; [reflexivity |]. split; reflexivity. Qed.

End FloatExamples.

(** ** Over the real numbers *)

Section RealExamples.
Import RealNum.
Local Open Scope R_scope.

Lemma Reqb_refl (x : R) : Reqb x x = true.
Proof. unfold Reqb. destruct (Req_dec_T x x); [reflexivity | contradiction]. Qed.

(** The order of the real numbers has what the interval invariant needs. *)
Lemma real_ordered : OrderedArithmetic (N := real_numeric).
Proof.
  constructor; cbn [leb ltb add zero of_Z real_numeric]; unfold zero;
    cbn [of_Z real_numeric]; intros;
    repeat match goal with
           | H : Rleb _ _ = true |- _ => apply Rleb_true in H
           | H : Rltb _ _ = true |- _ => apply Rltb_true in H
           end;
    try apply Rleb_true; try apply Rltb_true; lra.
Qed.

(** One round of the leaky rule with [R = C = 1] at a sample with
    [b + u = 0], from [y = 0]: the integrator stays at [0]. *)
Lemma real_leaky_round (u : list R) (i : nat) (y : R) :
  y = 0 -> getitem u i = Ok 0 ->
  exists y' : R,
    compute_y_leaky Rtrigo_def.exp u 1 0 1 (1 * 1)%num y i = Ok y' /\ y' = 0.
Proof.
  intros Hy Hu. unfold compute_y_leaky, pydiv. rewrite Hu.
  assert (E : eqb (1 * 1)%num (zero : R) = false).
  { unfold zero. cbn [eqb mul of_Z real_numeric]. unfold Reqb.
    destruct (Req_dec_T (1 * 1) 0) as [H | H]; [lra | reflexivity]. }
  rewrite E. cbn [bind]. eexists. split; [reflexivity |].
  subst y. cbn [add sub mul div opp of_Z real_numeric]. lra.
Qed.

(** Three samples, a leaky neuron with [R = C = 1], [b + u = 0],
    threshold [0]: the integrator stays at [0 >= d], and every step
    emits the interval [0 + 1]. *)
Lemma real_encode_three_samples :
  iaf_encode Rtrigo_def.exp RealNum.resample [0; 0; 0] 1 0 0 1 1 0 0 0 "trapz"
  = Ok [0 + 1; 0 + 1; 0 + 1].
Proof.
  unfold iaf_encode, iaf_encode_full, encode_resample, choose_compute_y, fmap.
  cbn [List.length Nat.eqb].
  assert (H1 : (0 >? 1)%num = false) by (apply Rltb_false; lra).
  assert (H2 : (0 <? zero)%num = false) by (apply Rltb_false; unfold zero; cbn; lra).
  assert (H3 : neb 0 zero = false)
    by (unfold neb, zero; cbn [eqb of_Z real_numeric]; rewrite Reqb_refl; reflexivity).
  rewrite H1, H2, H3.
  cbn [bind isinf real_numeric for_range].
  assert (Hz : (zero : R) = 0) by reflexivity.
  assert (Hfire : forall y' : R, y' = 0 -> (y' >=? 0)%num = true)
    by (intros y' E; apply Rleb_true; lra).
  unfold encode_body at 1.
  destruct (real_leaky_round [0; 0; 0] 0 0 eq_refl eq_refl) as [y0 [E0 Hy0]].
  rewrite E0. cbn [bind]. rewrite (Hfire y0 Hy0). cbn [bind app].
  unfold encode_body at 1.
  destruct (real_leaky_round [0; 0; 0] 1 zero Hz eq_refl) as [y1 [E1 Hy1]].
  rewrite E1. cbn [bind]. rewrite (Hfire y1 Hy1). cbn [bind app].
  unfold encode_body at 1.
  destruct (real_leaky_round [0; 0; 0] 2 zero Hz eq_refl) as [y2 [E2 Hy2]].
  rewrite E2. cbn [bind]. rewrite (Hfire y2 Hy2). cbn [bind app spikes].
  reflexivity.
Qed.


End RealExamples.

(** * Further properties *)

(** ** Loops *)

Section Loops.
Context {St : Type}.

Lemma bind_ok {A : Type} (r : result A) : (x <- r ;; Ok x) = r.
Proof. destruct r; reflexivity. Qed.

(** A loop of [n1 + n2] rounds is [n1] rounds and then [n2]. *)
Lemma for_range_app (body : St -> nat -> result St) (n1 n2 : nat) :
  forall (i : nat) (st : St),
    for_range body i (n1 + n2) st =
    st1 <- for_range body i n1 st ;; for_range body (i + n1) n2 st1.
Proof.
  induction n1 as [|n1 IH]; intros i st.
  - cbn [Nat.add for_range bind]. rewrite Nat.add_0_r. reflexivity.
  - cbn [Nat.add for_range].
    destruct (body st i) as [st'|e]; cbn [bind]; [|reflexivity].
    rewrite IH. replace (S i + n1)%nat with (i + S n1)%nat by lia. reflexivity.
Qed.

(** Two bodies that agree round by round run the same loop. *)
Lemma for_range_ext (body1 body2 : St -> nat -> result St) (n : nat) :
  forall (i1 i2 : nat) (st : St),
    (forall (k : nat) (st' : St), (k < n)%nat ->
        body1 st' (i1 + k)%nat = body2 st' (i2 + k)%nat) ->
    for_range body1 i1 n st = for_range body2 i2 n st.
Proof.
  induction n as [|n IH]; intros i1 i2 st H; [reflexivity |].
  cbn [for_range].
  pose proof (H 0%nat st ltac:(lia)) as H0. rewrite !Nat.add_0_r in H0.
  rewrite H0. destruct (body2 st i2) as [st'|e]; cbn [bind]; [|reflexivity].
  apply IH. intros k st'' Hk.
  replace (S i1 + k)%nat with (i1 + S k)%nat by lia.
  replace (S i2 + k)%nat with (i2 + S k)%nat by lia.
  apply H. lia.
Qed.

(** What holds after every round holds after a loop of at least one. *)
Lemma for_range_last (body : St -> nat -> result St) (Q : St -> Prop) :
  (forall st i st', body st i = Ok st' -> Q st') ->
  forall (n i : nat) (st st' : St),
    for_range body i (S n) st = Ok st' -> Q st'.
Proof.
  intros HQ n. induction n as [|n IH]; intros i st st' Hrun.
  - cbn [for_range] in Hrun.
    destruct (body st i) as [st1|e] eqn:Hb; cbn [bind] in Hrun; [|discriminate].
    inversion Hrun. subst. exact (HQ _ _ _ Hb).
  - change (for_range body i (S (S n)) st)
      with (st1 <- body st i ;; for_range body (S i) (S n) st1) in Hrun.
    destruct (body st i) as [st1|e]; cbn [bind] in Hrun; [|discriminate].
    exact (IH _ _ _ Hrun).
Qed.
End Loops.

(** ** The encoder, block by block *)

Section EncoderBlocks.
Context {num : Type} {N : Numeric num}.
Local Open Scope num_scope.

Variable exp : num -> num.
Variable resample : list num -> Z -> result (list num).

Lemma getitem_app_l (v1 v2 : list num) (i : nat) :
  (i < List.length v1)%nat -> getitem (v1 ++ v2) i = getitem v1 i.
Proof. intros H. unfold getitem. rewrite nth_error_app1 by exact H. reflexivity. Qed.

Lemma getitem_app_r (v1 v2 : list num) (i : nat) :
  getitem (v1 ++ v2) (List.length v1 + i) = getitem v2 i.
Proof.
  unfold getitem. rewrite nth_error_app2 by lia.
  replace (List.length v1 + i - List.length v1)%nat with i by lia. reflexivity.
Qed.

Lemma for_range_prepend (cy : num -> nat -> result num) (dt d : num)
    (s0 : list num) (n : nat) :
  forall (i : nat) (y itv : num) (s : list num),
    for_range (encode_body cy dt d) i n (y, itv, (s0 ++ s)%list) =
    fmap (prepend s0) (for_range (encode_body cy dt d) i n (y, itv, s)).
Proof.
  induction n as [|n IH]; intros i y itv s; [reflexivity |].
  cbn [for_range]. unfold encode_body at 1 3.
  destruct (cy y i) as [y'|e]; cbn [bind]; [|reflexivity].
  destruct (y' >=? d); cbn [bind].
  - rewrite <- app_assoc. apply IH.
  - apply IH.
Qed.

Lemma one_sample_closure_app (dt b R C : num) (v1 v2 : list num) (y : num)
    (i : nat) :
  ((i < List.length v1)%nat ->
   one_sample_closure exp dt b R C (v1 ++ v2)%list y i
   = one_sample_closure exp dt b R C v1 y i) /\
  one_sample_closure exp dt b R C (v1 ++ v2)%list y (List.length v1 + i)
  = one_sample_closure exp dt b R C v2 y i.
Proof.
  unfold one_sample_closure, compute_y_rect, compute_y_leaky.
  destruct (isinf R); split; intros;
    rewrite ?getitem_app_r, ?getitem_app_l by assumption; reflexivity.
Qed.

(** Without resampling, and when the rule is not the trapezoidal one,
    [iaf_encode_full] is the loop over every sample. *)
Lemma iaf_encode_full_every_sample (u : list num)
    (dt b d R C dte y interval : num) (quad_method : string) :
  (dte >? dt) = false -> (dte <? zero) = false -> neb dte zero = false ->
  isinf R = false \/ String.eqb quad_method "rect" = true ->
  iaf_encode_full exp resample u dt b d R C dte y interval quad_method =
  st <- for_range (encode_body (one_sample_closure exp dt b R C u) dt d)
          0 (List.length u) (y, interval, []) ;;
  let '(y, interval, s) := st in
  Ok (mkState s dt y interval).
Proof.
  intros H1 H2 H3 Hrule. destruct u as [|x u]; [reflexivity |].
  rewrite (iaf_encode_full_loop exp resample x u (x :: u) dt dt b d R C dte
             y interval quad_method H1 H2)
    by (unfold encode_resample; rewrite H3; reflexivity).
  unfold choose_compute_y, one_sample_closure.
  destruct (isinf R).
  - destruct Hrule as [Hrule | Hrule]; [discriminate |].
    rewrite Hrule. reflexivity.
  - reflexivity.
Qed.

(** X1.  Encoding block by block.  Without resampling and with the
    rectangular or the exponential Euler rule, encoding [u1] and then
    [u2] from the integrator value and the interval counter the first
    call returned gives the spikes of the two calls, one after the other,
    and the final state of encoding [u1 ++ u2] in one call. *)
Theorem iaf_encode_full_blocks (u1 u2 : list num)
    (dt b d R C dte y interval : num) (quad_method : string)
    (st1 st2 : encoder_state) :
  (dte >? dt) = false -> (dte <? zero) = false -> neb dte zero = false ->
  isinf R = false \/ String.eqb quad_method "rect" = true ->
  iaf_encode_full exp resample u1 dt b d R C dte y interval quad_method
  = Ok st1 ->
  iaf_encode_full exp resample u2 dt b d R C dte (st_y st1) (st_interval st1)
    quad_method = Ok st2 ->
  iaf_encode_full exp resample (u1 ++ u2) dt b d R C dte y interval quad_method
  = Ok (mkState (spikes st1 ++ spikes st2) dt (st_y st2) (st_interval st2)).
Proof.
  intros H1 H2 H3 Hrule Hrun1 Hrun2.
  rewrite iaf_encode_full_every_sample in Hrun1, Hrun2 |- * by assumption.
  set (cy := one_sample_closure exp dt b R C) in *.
  destruct (for_range (encode_body (cy u1) dt d) 0 (List.length u1)
              (y, interval, [])) as [[[y1 itv1] s1]|e] eqn:Hloop1;
    cbn [bind] in Hrun1; [|discriminate].
  inversion Hrun1. subst st1. clear Hrun1. cbn [st_y st_interval spikes] in *.
  destruct (for_range (encode_body (cy u2) dt d) 0 (List.length u2)
              (y1, itv1, [])) as [[[y2 itv2] s2]|e] eqn:Hloop2;
    cbn [bind] in Hrun2; [|discriminate].
  inversion Hrun2. subst st2. clear Hrun2. cbn [st_y st_interval spikes].
  rewrite length_app, for_range_app.
  rewrite (for_range_ext (encode_body (cy (u1 ++ u2)%list) dt d)
             (encode_body (cy u1) dt d) (List.length u1) 0 0).
  2:{ intros k [[y' itv'] s'] Hk. unfold encode_body, cy. cbn [Nat.add].
      rewrite (proj1 (one_sample_closure_app dt b R C u1 u2 y' k) Hk).
      reflexivity. }
  rewrite Hloop1. cbn [bind Nat.add].
  rewrite (for_range_ext (encode_body (cy (u1 ++ u2)%list) dt d)
             (encode_body (cy u2) dt d) (List.length u2) (List.length u1) 0).
  2:{ intros k [[y' itv'] s'] Hk. unfold encode_body, cy. cbn [Nat.add].
      rewrite (proj2 (one_sample_closure_app dt b R C u1 u2 y' k)).
      reflexivity. }
  rewrite <- (app_nil_r s1) at 1. rewrite for_range_prepend, Hloop2.
  reflexivity.
Qed.

End EncoderBlocks.

(** ** What one call of the encoder returns *)

Section EncoderRounds.
Context {num : Type} {N : Numeric num}.
Local Open Scope num_scope.

Variable exp : num -> num.
Variable resample : list num -> Z -> result (list num).

Lemma encode_rounds_le (u : list num) (R : num) (quad_method : string) :
  (encode_rounds u R quad_method <= List.length u)%nat.
Proof.
  unfold encode_rounds.
  destruct (isinf R); [destruct (String.eqb quad_method "rect") |]; lia.
Qed.

(** A call that returns has run the loop for [encode_rounds] rounds, at
    the step [encode_step], from the state it was passed. *)
Lemma iaf_encode_full_inv (u : list num) (dt b d R C dte y interval : num)
    (quad_method : string) (st : encoder_state) :
  iaf_encode_full exp resample u dt b d R C dte y interval quad_method = Ok st ->
  exists cy : num -> nat -> result num,
    for_range (encode_body cy (encode_step dt dte) d) 0
      (encode_rounds u R quad_method) (y, interval, [])
    = Ok (st_y st, st_interval st, spikes st).
Proof.
  intros Hrun. unfold iaf_encode_full in Hrun.
  destruct u as [|x u].
  - cbn [List.length Nat.eqb] in Hrun. inversion Hrun. subst st.
    exists (fun y _ => Ok y).
    replace (encode_rounds [] R quad_method) with 0%nat; [reflexivity |].
    unfold encode_rounds.
    destruct (isinf R); [destruct (String.eqb quad_method "rect") |]; reflexivity.
  - cbn [List.length Nat.eqb] in Hrun.
    destruct (dte >? dt); [discriminate |].
    destruct (dte <? zero); [discriminate |].
    assert (Hres : forall udt, encode_resample resample (x :: u) dt dte = Ok udt ->
                               snd udt = encode_step dt dte).
    { unfold encode_resample, encode_step. intros udt.
      destruct (neb dte zero).
      - destruct (to_int (dt / dte)) as [k|e]; cbn [bind]; [|discriminate].
        destruct (resample (x :: u) (Z.of_nat (List.length (x :: u)) * k)%Z)
          as [u'|e]; cbn [bind]; [|discriminate].
        intros E. inversion E. reflexivity.
      - intros E. inversion E. reflexivity. }
    destruct (encode_resample resample (x :: u) dt dte) as [[u' dt']|e];
      cbn [bind] in Hrun; [|discriminate].
    specialize (Hres (u', dt') eq_refl). cbn [snd] in Hres. subst dt'.
    unfold choose_compute_y in Hrun. unfold encode_rounds.
    cbn [List.length].
    destruct (isinf R).
    + destruct (String.eqb quad_method "rect").
      * cbn [bind] in Hrun.
        match type of Hrun with
        | context [for_range (encode_body ?c _ _) _ _ _] => exists c
        end.
        destruct (for_range _ 0 (S (List.length u)) (y, interval, []))
          as [[[y' itv'] s']|e]; cbn [bind] in Hrun; [|discriminate].
        inversion Hrun. reflexivity.
      * destruct (String.eqb quad_method "trapz"); [|discriminate].
        cbn [bind] in Hrun.
        match type of Hrun with
        | context [for_range (encode_body ?c _ _) _ _ _] => exists c
        end.
        destruct (for_range _ 0 (S (List.length u) - 1) (y, interval, []))
          as [[[y' itv'] s']|e]; cbn [bind] in Hrun; [|discriminate].
        inversion Hrun. reflexivity.
    + cbn [bind] in Hrun.
      match type of Hrun with
      | context [for_range (encode_body ?c _ _) _ _ _] => exists c
      end.
      destruct (for_range _ 0 (S (List.length u)) (y, interval, []))
        as [[[y' itv'] s']|e]; cbn [bind] in Hrun; [|discriminate].
      inversion Hrun. reflexivity.
Qed.

(** At most one spike per round. *)
Lemma for_range_spike_count (cy : num -> nat -> result num) (h d : num) (n : nat) :
  forall (i : nat) (y itv : num) (s : list num) (y' itv' : num) (s' : list num),
    for_range (encode_body cy h d) i n (y, itv, s) = Ok (y', itv', s') ->
    (List.length s' <= List.length s + n)%nat.
Proof.
  induction n as [|n IH]; intros i y itv s y' itv' s' Hrun.
  - inversion Hrun. lia.
  - cbn [for_range] in Hrun. unfold encode_body at 1 in Hrun.
    destruct (cy y i) as [y1|e]; cbn [bind] in Hrun; [|discriminate].
    destruct (y1 >=? d); cbn [bind] in Hrun; apply IH in Hrun;
      rewrite ?length_app in Hrun; cbn [List.length] in Hrun; lia.
Qed.

(** X2.  A call of the encoder returns at most one interval per round
    of its loop, hence at most [len(u)] intervals, and at most
    [len(u) - 1] under the trapezoidal rule; this holds with a
    resampling too, where the rounds are still counted on the signal as
    it was passed. *)
Theorem iaf_encode_spike_count (u : list num) (dt b d R C dte y interval : num)
    (quad_method : string) (s : list num) :
  iaf_encode exp resample u dt b d R C dte y interval quad_method = Ok s ->
  (List.length s <= encode_rounds u R quad_method)%nat /\
  (encode_rounds u R quad_method <= List.length u)%nat.
Proof.
  intros Hrun. split; [|apply encode_rounds_le].
  unfold iaf_encode, fmap in Hrun.
  destruct (iaf_encode_full exp resample u dt b d R C dte y interval quad_method)
    as [st|e] eqn:Hfull; cbn [bind] in Hrun; [|discriminate].
  inversion Hrun. subst s. clear Hrun.
  destruct (iaf_encode_full_inv _ _ _ _ _ _ _ _ _ _ _ Hfull) as [cy Hloop].
  apply for_range_spike_count in Hloop. cbn [List.length] in Hloop. lia.
Qed.

(** X3.  The state a call returns holds no pending spike: when the loop
    ran for at least one round, the integrator value is below the
    threshold, or the last round fired and both the integrator value and
    the interval counter are zero. *)
Theorem iaf_encode_full_final_state (u : list num)
    (dt b d R C dte y interval : num) (quad_method : string)
    (st : encoder_state) :
  (1 <= encode_rounds u R quad_method)%nat ->
  iaf_encode_full exp resample u dt b d R C dte y interval quad_method = Ok st ->
  (st_y st >=? d) = false \/ (st_y st = zero /\ st_interval st = zero).
Proof.
  intros Hrounds Hrun.
  destruct (iaf_encode_full_inv _ _ _ _ _ _ _ _ _ _ _ Hrun) as [cy Hloop].
  destruct (encode_rounds u R quad_method) as [|n]; [lia |].
  apply (for_range_last (encode_body cy (encode_step dt dte) d)
           (fun st' : num * num * list num =>
              let '(y', itv', _) := st' in
              (y' >=? d) = false \/ (y' = zero /\ itv' = zero))) in Hloop.
  - exact Hloop.
  - intros [[y0 itv0] s0] i [[y1 itv1] s1] Hbody. unfold encode_body in Hbody.
    destruct (cy y0 i) as [y'|e]; cbn [bind] in Hbody; [|discriminate].
    destruct (y' >=? d) eqn:Hfire; inversion Hbody; subst.
    + right. split; reflexivity.
    + left. exact Hfire.
Qed.

Lemma intervals_after_cons (h start : num) (n : nat) (ns : list nat)
    (n_out : nat) :
  intervals_after h start (n :: ns) n_out
  = (elapsed n h start :: fst (intervals_after h zero ns n_out),
     snd (intervals_after h zero ns n_out)).
Proof.
  cbn [intervals_after]. destruct (intervals_after h zero ns n_out).
  reflexivity.
Qed.

Lemma elapsed_shift (n : nat) (h start : num) :
  elapsed n h (start + h) = elapsed (S n) h start.
Proof. unfold elapsed. rewrite Nat.iter_succ_r. reflexivity. Qed.

(** A round without a spike is one more round before the next spike,
    or one more round after the last. *)
Lemma intervals_after_shift (h start : num) (ns : list nat) (n_out : nat) :
  Forall (fun n => (1 <= n)%nat) ns ->
  exists (ns' : list nat) (n_out' : nat),
    Forall (fun n => (1 <= n)%nat) ns' /\
    (list_sum ns' + n_out' = S (list_sum ns + n_out))%nat /\
    intervals_after h start ns' n_out' = intervals_after h (start + h) ns n_out.
Proof.
  intros Hns. destruct ns as [|n ns].
  - exists [], (S n_out). split; [constructor |]. split; [reflexivity |].
    cbn [intervals_after]. rewrite elapsed_shift. reflexivity.
  - exists (S n :: ns), n_out. inversion Hns; subst. split.
    + constructor; [lia | assumption].
    + split; [simpl; lia |].
      rewrite !intervals_after_cons, elapsed_shift. reflexivity.
Qed.

Lemma for_range_accounted (cy : num -> nat -> result num) (h d : num) (n : nat) :
  forall (i : nat) (y itv : num) (s : list num) (y' itv' : num) (s' : list num),
    for_range (encode_body cy h d) i n (y, itv, s) = Ok (y', itv', s') ->
    exists (ns : list nat) (n_out : nat),
      Forall (fun k => (1 <= k)%nat) ns /\
      (list_sum ns + n_out = n)%nat /\
      s' = (s ++ fst (intervals_after h itv ns n_out))%list /\
      itv' = snd (intervals_after h itv ns n_out).
Proof.
  induction n as [|n IH]; intros i y itv s y' itv' s' Hrun.
  - inversion Hrun. subst. exists [], 0%nat.
    split; [constructor |]. split; [reflexivity |].
    cbn [intervals_after fst snd]. rewrite app_nil_r. split; reflexivity.
  - cbn [for_range] in Hrun. unfold encode_body at 1 in Hrun.
    destruct (cy y i) as [y1|e]; cbn [bind] in Hrun; [|discriminate].
    destruct (y1 >=? d); cbn [bind] in Hrun; apply IH in Hrun;
      destruct Hrun as [ns [n_out [Hns [Hsum [Hs Hitv]]]]].
    + exists (1%nat :: ns), n_out. split; [constructor; [lia | exact Hns] |].
      split; [simpl; lia |].
      rewrite intervals_after_cons. cbn [fst snd].
      rewrite Hs, <- app_assoc. split; [reflexivity | exact Hitv].
    + destruct (intervals_after_shift h itv ns n_out Hns)
        as [ns' [n_out' [Hns' [Hsum' E]]]].
      exists ns', n_out'. split; [exact Hns' |]. split; [lia |].
      rewrite E. split; assumption.
Qed.

(** X4.  Every round is accounted for.  There are counts
    [n_1, ..., n_k >= 1], one for each interval returned, and [n_out]
    with [n_1 + ... + n_k + n_out] the number of rounds of the loop:
    the first interval is the step in use added [n_1] times to the
    counter the call was passed, every later interval the step added
    [n_i] times to [0.0], and the counter that is returned the step
    added [n_out] times likewise.  Nothing is assumed of the
    arithmetic. *)
Theorem iaf_encode_full_accounted (u : list num)
    (dt b d R C dte y interval : num) (quad_method : string)
    (st : encoder_state) :
  iaf_encode_full exp resample u dt b d R C dte y interval quad_method = Ok st ->
  exists (ns : list nat) (n_out : nat),
    Forall (fun n => (1 <= n)%nat) ns /\
    (list_sum ns + n_out = encode_rounds u R quad_method)%nat /\
    intervals_after (encode_step dt dte) interval ns n_out
    = (spikes st, st_interval st).
Proof.
  intros Hrun.
  destruct (iaf_encode_full_inv _ _ _ _ _ _ _ _ _ _ _ Hrun) as [cy Hloop].
  apply for_range_accounted in Hloop.
  destruct Hloop as [ns [n_out [Hns [Hsum [Hs Hitv]]]]].
  exists ns, n_out. split; [exact Hns |]. split; [exact Hsum |].
  cbn [app] in Hs. rewrite Hs, Hitv.
  destruct (intervals_after _ _ _ _). reflexivity.
Qed.

End EncoderRounds.

(** ** The systems the decoders solve *)

Section ListFacts.
Context {A B C : Type}.

Lemma map2_length (f : A -> B -> C) (xs : list A) (ys : list B) :
  List.length (map2 f xs ys) = Nat.min (List.length xs) (List.length ys).
Proof.
  revert ys. induction xs as [|x xs IH]; intros [|y ys]; cbn; try reflexivity.
  rewrite IH. reflexivity.
Qed.

(** A list read entry by entry is the list. *)
Lemma map_nth_seq (l : list A) (d : A) :
  map (fun i => nth i l d) (seq 0 (List.length l)) = l.
Proof.
  induction l as [|x l IH]; [reflexivity |].
  cbn [List.length seq map nth]. f_equal.
  rewrite <- seq_shift, map_map. exact IH.
Qed.

Lemma mapM_Forall2 (f : A -> result B) (l : list A) :
  forall ys : list B, mapM f l = Ok ys -> Forall2 (fun x y => f x = Ok y) l ys.
Proof.
  induction l as [|x l IH]; intros ys H.
  - inversion H. constructor.
  - cbn [mapM] in H.
    destruct (f x) as [y|e] eqn:Hx; cbn [bind] in H; [|discriminate].
    destruct (mapM f l) as [ys'|e]; cbn [bind] in H; [|discriminate].
    inversion H. subst. constructor; [exact Hx | apply IH; reflexivity].
Qed.

(** What every result has in common can be read off the arguments. *)
Lemma Forall2_map_eq (R : A -> B -> Prop) (g : B -> C) (h : A -> C)
    (l : list A) (ys : list B) :
  Forall2 R l ys -> (forall x y, In x l -> R x y -> g y = h x) ->
  map g ys = map h l.
Proof.
  induction 1 as [|x y l ys Hxy Hrest IH]; intros Hgh; [reflexivity |].
  cbn [map]. f_equal.
  - apply Hgh; [left; reflexivity | exact Hxy].
  - apply IH. intros x' y' Hin. apply Hgh. right. exact Hin.
Qed.
End ListFacts.

Lemma sum_nat_list_sum (l : list nat) : sum_nat l = list_sum l.
Proof.
  unfold sum_nat.
  assert (H : forall acc, fold_left Nat.add l acc = (acc + list_sum l)%nat).
  { induction l as [|x l IH]; intros acc; simpl; [lia |].
    rewrite IH. lia. }
  rewrite H. reflexivity.
Qed.

Section DecoderShapes.
Context {num cnum : Type} {N : Numeric num} {CN : ComplexOps num cnum}.
Local Open Scope num_scope.

Variable exp : num -> num.
Variable pi : num.
Variable sici_si : num -> num.
Variable ei : cnum -> cnum.
Variable sinc : num -> num.
Variable arange : num -> num -> num -> list num.
Variable pinv : list (list num) -> num -> result (list (list num)).

Lemma build_matrix_shape (nr nc : nat) (entry : nat -> nat -> num) :
  List.length (build_matrix nr nc entry) = nr /\
  Forall (fun row => List.length row = nc) (build_matrix nr nc entry).
Proof.
  unfold build_matrix. split.
  - rewrite length_map, length_seq. reflexivity.
  - apply Forall_forall. intros row Hrow.
    apply in_map_iff in Hrow. destruct Hrow as [i [Hi _]]. subst row.
    rewrite length_map, length_seq. reflexivity.
Qed.

(** One midpoint per pair of consecutive spikes. *)
Lemma midpoints_length (ts : list num) :
  List.length (midpoints ts) = (List.length ts - 1)%nat.
Proof.
  unfold midpoints. rewrite length_map, map2_length, removelast_length.
  destruct ts as [|t ts]; cbn [List.length tl]; lia.
Qed.

Lemma midpoints_cumsum_length (s : list num) :
  List.length (midpoints (cumsum s)) = (List.length s - 1)%nat.
Proof. rewrite midpoints_length, cumsum_length. reflexivity. Qed.

(** X5.  The dense decoder's system is well formed: for a train of
    [len(s)] intervals the matrix [G] is square of size [len(s) - 1], and
    the quanta vector has [len(s) - 1] entries, whichever closed form is
    in use. *)
Theorem iaf_decode_system_shape (s : list num) (bw b d R C : num) :
  let n := (List.length s - 1)%nat in
  let G := iaf_decode_G exp pi sici_si ei s bw R C in
  List.length G = n /\
  Forall (fun row => List.length row = n) G /\
  List.length (iaf_decode_q exp s b d R C) = n.
Proof.
  intros n G. subst G. unfold iaf_decode_G, iaf_decode_q.
  rewrite midpoints_cumsum_length. fold n.
  assert (Htl : List.length (tl s) = n)
    by (unfold n; destruct s; cbn [tl List.length]; lia).
  destruct (isinf R);
    (split; [apply build_matrix_shape |];
     split; [apply build_matrix_shape |];
     rewrite length_map; exact Htl).
Qed.

(** One block, side by side with nothing, is the block. *)
Lemma hstack_single (blk : list (list num)) :
  hstack (List.length blk) [blk] = blk.
Proof.
  unfold hstack. cbn [map List.concat].
  rewrite <- (map_nth_seq blk []) at 2.
  apply map_ext. intros n. apply app_nil_r.
Qed.

(** X6.  One encoder.  On a train of at least two intervals the
    population decoder, given the one train and the one-entry parameter
    lists, computes what the dense decoder computes: the same matrix, the
    same quanta, and the same call of [pinv]. *)
Theorem iaf_decode_pop_single (s0 s1 : num) (s' : list num)
    (dur dt bw b d R C : num) :
  let s := s0 :: s1 :: s' in
  iaf_decode_pop exp pi sici_si ei sinc arange pinv [s] dur dt bw [b] [d] [R] [C]
  = iaf_decode exp pi sici_si ei sinc arange pinv s dur dt bw b d R C.
Proof.
  intros s. unfold iaf_decode.
  replace (Nat.ltb (List.length s) 2) with false by reflexivity.
  unfold iaf_decode_pop, iaf_decode_pop_system, pop_rows, pop_G_block,
    pop_quanta, iaf_decode_solve, iaf_decode_G, iaf_decode_q, G_block, pop_q.
  cbn [List.length Nat.eqb seq mapM map nth forallb getitem nth_error bind
       fst snd List.concat firstn for_range].
  rewrite andb_true_r.
  set (tsh := midpoints (cumsum s)).
  destruct (isinf R); cbn [bind mapM fst snd map List.concat];
    rewrite !app_nil_r;
    match goal with
    | |- context [hstack (List.length tsh) [build_matrix ?nr ?nc ?f]] =>
        replace (hstack (List.length tsh) [build_matrix nr nc f])
          with (build_matrix nr nc f)
          by (rewrite <- (hstack_single (build_matrix nr nc f)) at 1;
              rewrite (proj1 (build_matrix_shape nr nc f)); reflexivity)
    end;
    (destruct (pinv _ pinv_rcond) as [Gi|e]; cbn [bind]; [|reflexivity]);
    apply bind_ok.
Qed.

(** *** The population decoder's system *)

Lemma Forall2_Forall_r {A B : Type} (R : A -> B -> Prop) (P : B -> Prop)
    (l : list A) (ys : list B) :
  Forall2 R l ys -> (forall x y, In x l -> R x y -> P y) -> Forall P ys.
Proof.
  induction 1 as [|x y l ys Hxy Hrest IH]; intros HP; constructor.
  - apply (HP x); [left; reflexivity | exact Hxy].
  - apply IH. intros x' y' Hin. apply HP. right. exact Hin.
Qed.

(** The midpoints of train [l]. *)
Lemma nth_midpoints_list (s_list : list (list num)) (l : nat) :
  nth l (map midpoints (map cumsum s_list)) [] =
  midpoints (cumsum (nth l s_list [])).
Proof.
  rewrite map_map.
  exact (map_nth (fun s => midpoints (cumsum s)) s_list [] l).
Qed.

Lemma midpoint_counts (s_list : list (list num)) :
  map (fun l => List.length (nth l (map midpoints (map cumsum s_list)) []))
      (seq 0 (List.length s_list))
  = map (fun s => (List.length s - 1)%nat) s_list.
Proof.
  transitivity (map (fun s => (List.length s - 1)%nat)
                  (map (fun l => nth l s_list []) (seq 0 (List.length s_list)))).
  - rewrite (map_map (fun l => nth l s_list [])). apply map_ext. intros l.
    rewrite nth_midpoints_list. apply midpoints_cumsum_length.
  - rewrite map_nth_seq. reflexivity.
Qed.

Lemma pop_G_block_shape (bw : num) (s_list : list (list num))
    (R_list C_list : list num) (l m : nat) (blk : list (list num)) :
  pop_G_block exp pi sici_si ei bw s_list R_list C_list l m = Ok blk ->
  List.length blk = List.length (nth l (map midpoints (map cumsum s_list)) []) /\
  Forall (fun row =>
            List.length row
            = List.length (nth m (map midpoints (map cumsum s_list)) []))
         blk.
Proof.
  unfold pop_G_block, G_block. intros H.
  destruct (forallb isinf R_list).
  - inversion H. apply build_matrix_shape.
  - destruct (getitem R_list l) as [R_l|e]; cbn [bind] in H; [|discriminate].
    destruct (getitem C_list l) as [C_l|e]; cbn [bind] in H; [|discriminate].
    inversion H. apply build_matrix_shape.
Qed.

Lemma pop_quanta_length (s_list : list (list num))
    (b_list d_list R_list C_list : list num) (l : nat) (q_l : list num) :
  pop_quanta exp s_list b_list d_list R_list C_list l = Ok q_l ->
  List.length q_l = List.length (nth l (map midpoints (map cumsum s_list)) []).
Proof.
  unfold pop_quanta, pop_q. intros H.
  rewrite nth_midpoints_list, midpoints_cumsum_length.
  assert (Htl : forall s : list num, List.length (tl s) = (List.length s - 1)%nat)
    by (intros [|x s]; cbn [tl List.length]; lia).
  destruct (forallb isinf R_list);
    repeat match type of H with
           | context [getitem ?a ?i] =>
               destruct (getitem a i); cbn [bind] in H; [|discriminate]
           end;
    inversion H; rewrite length_map; apply Htl.
Qed.

Lemma pop_rows_shape (bw : num) (s_list : list (list num))
    (b_list d_list R_list C_list : list num) (l : nat)
    (rows : list (list num)) (q_l : list num) :
  pop_rows exp pi sici_si ei bw s_list b_list d_list R_list C_list l
  = Ok (rows, q_l) ->
  let Nsh_l := List.length (nth l (map midpoints (map cumsum s_list)) []) in
  let n := sum_nat (map (fun s => (List.length s - 1)%nat) s_list) in
  List.length rows = Nsh_l /\
  Forall (fun row => List.length row = n) rows /\
  List.length q_l = Nsh_l.
Proof.
  intros H Nsh_l n. unfold pop_rows in H.
  destruct (mapM (pop_G_block exp pi sici_si ei bw s_list R_list C_list l)
              (seq 0 (List.length s_list))) as [blocks|e] eqn:Hblocks;
    cbn [bind] in H; [|discriminate].
  destruct (pop_quanta exp s_list b_list d_list R_list C_list l) as [q|e] eqn:Hq;
    cbn [bind] in H; [|discriminate].
  inversion H. subst rows q_l. clear H. fold Nsh_l.
  apply mapM_Forall2 in Hblocks.
  split; [unfold hstack; rewrite length_map, length_seq; reflexivity |].
  split; [|exact (pop_quanta_length _ _ _ _ _ _ _ Hq)].
  unfold hstack. apply Forall_forall. intros row Hrow.
  apply in_map_iff in Hrow. destruct Hrow as [k [Hk Hin]]. subst row.
  apply in_seq in Hin.
  rewrite length_concat, map_map.
  rewrite (Forall2_map_eq _
             (fun blk : list (list num) => List.length (nth k blk []))
             (fun m => List.length (nth m (map midpoints (map cumsum s_list)) []))
             _ _ Hblocks).
  - rewrite midpoint_counts. unfold n. symmetry. apply sum_nat_list_sum.
  - intros m blk _ Hblk. apply pop_G_block_shape in Hblk.
    destruct Hblk as [Hlen Hcols].
    rewrite Forall_forall in Hcols. apply Hcols. apply nth_In.
    rewrite Hlen. fold Nsh_l. lia.
Qed.

(** X7.  The population decoder's system is well formed: the matrix [G]
    is square, of the size [sum(Nsh_list)] that line 367 computes (one
    row and one column per midpoint of every train, trains of different
    lengths allowed), and [q] has as many entries. *)
Theorem iaf_decode_pop_system_shape (s_list : list (list num)) (bw : num)
    (b_list d_list R_list C_list : list num)
    (G : list (list num)) (q : list num) :
  iaf_decode_pop_system exp pi sici_si ei s_list bw b_list d_list R_list C_list
  = Ok (G, q) ->
  let n := sum_nat (map (fun s => (List.length s - 1)%nat) s_list) in
  List.length G = n /\
  Forall (fun row => List.length row = n) G /\
  List.length q = n.
Proof.
  intros H n. unfold iaf_decode_pop_system in H.
  destruct (mapM (pop_rows exp pi sici_si ei bw s_list b_list d_list R_list C_list)
              (seq 0 (List.length s_list))) as [rows|e] eqn:Hrows;
    cbn [bind] in H; [|discriminate].
  inversion H. subst G q. clear H.
  apply mapM_Forall2 in Hrows.
  assert (Hcount : forall (g : list (list num) * list num -> nat),
             (forall l r, pop_rows exp pi sici_si ei bw s_list b_list d_list
                            R_list C_list l = Ok r ->
                          g r = List.length
                                  (nth l (map midpoints (map cumsum s_list)) [])) ->
             list_sum (map g rows) = n).
  { intros g Hg.
    rewrite (Forall2_map_eq _ g
               (fun l => List.length (nth l (map midpoints (map cumsum s_list)) []))
               _ _ Hrows) by (intros l r _ Hr; exact (Hg l r Hr)).
    rewrite midpoint_counts. unfold n. symmetry. apply sum_nat_list_sum. }
  split; [|split].
  - rewrite length_concat, map_map. apply Hcount.
    intros l [rows_l q_l] Hr. exact (proj1 (pop_rows_shape _ _ _ _ _ _ _ _ _ Hr)).
  - apply Forall_concat. apply Forall_map.
    apply (Forall2_Forall_r _ _ _ _ Hrows).
    intros l [rows_l q_l] _ Hr.
    exact (proj1 (proj2 (pop_rows_shape _ _ _ _ _ _ _ _ _ Hr))).
  - rewrite length_concat, map_map. apply Hcount.
    intros l [rows_l q_l] Hr.
    exact (proj2 (proj2 (pop_rows_shape _ _ _ _ _ _ _ _ _ Hr))).
Qed.

End DecoderShapes.

(** ** The parameter lists of the population decoder *)

Section MapErrors.
Context {A B : Type}.

Lemma getitem_short (l : list A) (i : nat) :
  (List.length l <= i)%nat -> getitem l i = Raise IndexError.
Proof.
  intros H. unfold getitem.
  rewrite (proj2 (nth_error_None l i) H). reflexivity.
Qed.

Lemma getitem_raises (l : list A) (i : nat) (e : exn) :
  getitem l i = Raise e -> e = IndexError.
Proof.
  unfold getitem. destruct (nth_error l i); intros H; inversion H. reflexivity.
Qed.

(** A comprehension raises what its first failing body raises. *)
Lemma mapM_raises (f : A -> result B) (E : exn) (l : list A) :
  (forall x e, In x l -> f x = Raise e -> e = E) ->
  (exists x e, In x l /\ f x = Raise e) ->
  mapM f l = Raise E.
Proof.
  induction l as [|x l IH]; intros Hall [x0 [e0 [Hin Hx0]]]; [destruct Hin |].
  cbn [mapM]. destruct (f x) as [y|e] eqn:Hx; cbn [bind].
  - destruct Hin as [Heq | Hin]; [subst x0; congruence |].
    rewrite IH; [reflexivity | | exists x0, e0; split; assumption].
    intros x' e' Hin'. apply Hall. right. exact Hin'.
  - f_equal. apply (Hall x e); [left; reflexivity | exact Hx].
Qed.

Lemma mapM_raises_only (f : A -> result B) (E : exn) (l : list A) (e : exn) :
  (forall x e, In x l -> f x = Raise e -> e = E) ->
  mapM f l = Raise e -> e = E.
Proof.
  induction l as [|x l IH]; intros Hall H; [discriminate |].
  cbn [mapM] in H. destruct (f x) as [y|e1] eqn:Hx; cbn [bind] in H.
  - destruct (mapM f l) as [ys|e2]; cbn [bind] in H; [discriminate |].
    inversion H. subst e2. apply IH; [|reflexivity].
    intros x' e' Hin'. apply Hall. right. exact Hin'.
  - inversion H. subst e1. apply (Hall x e); [left; reflexivity | exact Hx].
Qed.

Lemma mapM_ext (f g : A -> result B) (l : list A) :
  (forall x, f x = g x) -> mapM f l = mapM g l.
Proof.
  intros H. induction l as [|x l IH]; [reflexivity |].
  cbn [mapM]. rewrite H, IH. reflexivity.
Qed.
End MapErrors.

Section PopulationParameters.
Context {num cnum : Type} {N : Numeric num} {CN : ComplexOps num cnum}.
Local Open Scope num_scope.

Variable exp : num -> num.
Variable pi : num.
Variable sici_si : num -> num.
Variable ei : cnum -> cnum.
Variable sinc : num -> num.
Variable arange : num -> num -> num -> list num.
Variable pinv : list (list num) -> num -> result (list (list num)).

Ltac read_items H :=
  repeat match type of H with
         | context [getitem ?a ?i] =>
             let E := fresh "E" in
             destruct (getitem a i) eqn:E; cbn [bind] in H;
             [| apply getitem_raises in E; congruence]
         end.

Lemma pop_G_block_raises (bw : num) (s_list : list (list num))
    (R_list C_list : list num) (l m : nat) (e : exn) :
  pop_G_block exp pi sici_si ei bw s_list R_list C_list l m = Raise e ->
  e = IndexError.
Proof.
  unfold pop_G_block. intros H.
  destruct (forallb isinf R_list); [discriminate |].
  read_items H. discriminate.
Qed.

Lemma pop_quanta_raises (s_list : list (list num))
    (b_list d_list R_list C_list : list num) (l : nat) (e : exn) :
  pop_quanta exp s_list b_list d_list R_list C_list l = Raise e ->
  e = IndexError.
Proof.
  unfold pop_quanta. intros H.
  destruct (forallb isinf R_list); read_items H; discriminate.
Qed.

Lemma pop_rows_raises (bw : num) (s_list : list (list num))
    (b_list d_list R_list C_list : list num) (l : nat) (e : exn) :
  pop_rows exp pi sici_si ei bw s_list b_list d_list R_list C_list l = Raise e ->
  e = IndexError.
Proof.
  unfold pop_rows. intros H.
  destruct (mapM _ (seq 0 (List.length s_list))) as [blocks|e1] eqn:Hblocks;
    cbn [bind] in H.
  - destruct (pop_quanta exp s_list b_list d_list R_list C_list l) as [q|e2] eqn:Hq;
      cbn [bind] in H; [discriminate |].
    inversion H. subst e2. exact (pop_quanta_raises _ _ _ _ _ _ _ Hq).
  - inversion H. subst e1.
    apply (mapM_raises_only _ IndexError _ _) in Hblocks; [exact Hblocks |].
    intros m e' _. apply pop_G_block_raises.
Qed.

(** The quanta of encoder [l] need entry [l] of [C_list], [d_list] and
    [b_list], and of [R_list] when some resistance is finite. *)
Lemma pop_quanta_short (s_list : list (list num))
    (b_list d_list R_list C_list : list num) (l : nat) :
  (List.length b_list <= l)%nat \/
  (List.length d_list <= l)%nat \/
  (List.length C_list <= l)%nat \/
  (forallb isinf R_list = false /\ (List.length R_list <= l)%nat) ->
  pop_quanta exp s_list b_list d_list R_list C_list l = Raise IndexError.
Proof.
  intros H. unfold pop_quanta.
  destruct (getitem C_list l) as [C_l|e] eqn:HC.
  2:{ apply getitem_raises in HC. subst e.
      destruct (forallb isinf R_list); reflexivity. }
  destruct (getitem d_list l) as [d_l|e] eqn:Hd.
  2:{ apply getitem_raises in Hd. subst e.
      destruct (forallb isinf R_list); reflexivity. }
  destruct (getitem b_list l) as [b_l|e] eqn:Hb.
  2:{ apply getitem_raises in Hb. subst e.
      destruct (forallb isinf R_list); reflexivity. }
  destruct H as [H | [H | [H | [Hfin H]]]].
  - rewrite (getitem_short _ _ H) in Hb. discriminate.
  - rewrite (getitem_short _ _ H) in Hd. discriminate.
  - rewrite (getitem_short _ _ H) in HC. discriminate.
  - rewrite Hfin. cbn [bind]. rewrite (getitem_short _ _ H). reflexivity.
Qed.

(** X8.  The population decoder does not compare the lengths of its
    lists: when [b_list], [d_list] or [C_list] is shorter than [s_list]
    (or [R_list] is, and holds a finite resistance), the first missing
    entry is reached while the system is built, and the call ends with
    an IndexError, before [pinv] is called. *)
Theorem iaf_decode_pop_short_parameters (s_list : list (list num))
    (dur dt bw : num) (b_list d_list R_list C_list : list num) :
  (List.length b_list < List.length s_list)%nat \/
  (List.length d_list < List.length s_list)%nat \/
  (List.length C_list < List.length s_list)%nat \/
  (forallb isinf R_list = false /\
   (List.length R_list < List.length s_list)%nat) ->
  iaf_decode_pop exp pi sici_si ei sinc arange pinv
    s_list dur dt bw b_list d_list R_list C_list
  = Raise IndexError.
Proof.
  intros H. unfold iaf_decode_pop.
  destruct (Nat.eqb_spec (List.length s_list) 0) as [Hz | Hnz].
  - exfalso. lia.
  - unfold iaf_decode_pop_system.
    rewrite (mapM_raises _ IndexError); [reflexivity | |].
    + intros l e _. apply pop_rows_raises.
    + exists (List.length s_list - 1)%nat.
      assert (Hq : pop_quanta exp s_list b_list d_list R_list C_list
                     (List.length s_list - 1) = Raise IndexError).
      { apply pop_quanta_short.
        destruct H as [H | [H | [H | [Hfin H]]]];
          [left | right; left | right; right; left | right; right; right; split];
          try exact Hfin; lia. }
      destruct (pop_rows exp pi sici_si ei bw s_list b_list d_list R_list C_list
                  (List.length s_list - 1)) as [r|e] eqn:Hrows.
      * exfalso. unfold pop_rows in Hrows. rewrite Hq in Hrows.
        destruct (mapM _ (seq 0 (List.length s_list))); cbn [bind] in Hrows;
          discriminate.
      * exists e. split; [apply in_seq; lia | reflexivity].
Qed.

Lemma pop_system_ideal (s_list : list (list num)) (bw : num)
    (b_list d_list R_list C_list : list num) :
  forallb isinf R_list = true ->
  iaf_decode_pop_system exp pi sici_si ei s_list bw b_list d_list R_list C_list
  = iaf_decode_pop_system exp pi sici_si ei s_list bw b_list d_list [] C_list.
Proof.
  intros H. unfold iaf_decode_pop_system. f_equal.
  apply mapM_ext. intros l. unfold pop_rows. f_equal.
  - apply mapM_ext. intros m. unfold pop_G_block. rewrite H. reflexivity.
  - unfold pop_quanta. rewrite H. reflexivity.
Qed.

(** X9.  The branch is chosen by [all(isinf(R_list))] and, once every
    resistance is infinite, [R_list] is not read again: two calls that
    differ in [R_list] alone give the same result, whatever the lengths
    of the two lists; the empty list counts as all infinite. *)
Theorem iaf_decode_pop_ideal_ignores_R (s_list : list (list num))
    (dur dt bw : num) (b_list d_list R_list R_list' C_list : list num) :
  forallb isinf R_list = true ->
  forallb isinf R_list' = true ->
  iaf_decode_pop exp pi sici_si ei sinc arange pinv
    s_list dur dt bw b_list d_list R_list C_list
  = iaf_decode_pop exp pi sici_si ei sinc arange pinv
      s_list dur dt bw b_list d_list R_list' C_list.
Proof.
  intros H H'. unfold iaf_decode_pop.
  rewrite (pop_system_ideal s_list bw b_list d_list R_list C_list H).
  rewrite (pop_system_ideal s_list bw b_list d_list R_list' C_list H').
  reflexivity.
Qed.

End PopulationParameters.

(** ** The entries of the population decoder's system *)

Section ListEntries.
Context {A B : Type}.

(** Entry [n] of part [l] of a concatenation. *)
Lemma nth_concat (d : A) (ls : list (list A)) :
  forall l n : nat,
    (l < List.length ls)%nat -> (n < List.length (nth l ls []))%nat ->
    nth (list_sum (map (@List.length A) (firstn l ls)) + n) (List.concat ls) d
    = nth n (nth l ls []) d.
Proof.
  induction ls as [|x ls IH]; intros l n Hl Hn; [cbn [List.length] in Hl; lia |].
  destruct l as [|l].
  - cbn [firstn map list_sum fold_right Nat.add List.concat nth] in *.
    apply app_nth1. exact Hn.
  - cbn [firstn map List.concat nth] in *.
    change (list_sum (List.length x :: map (@List.length A) (firstn l ls)))
      with (List.length x + list_sum (map (@List.length A) (firstn l ls)))%nat.
    rewrite <- Nat.add_assoc, app_nth2_plus.
    apply IH; [cbn [List.length] in Hl; lia | exact Hn].
Qed.

Lemma nth_map_seq (f : nat -> A) (d : A) (n len : nat) :
  (n < len)%nat -> nth n (map f (seq 0 len)) d = f n.
Proof.
  intros H. rewrite (nth_indep _ d (f 0%nat))
    by (rewrite length_map, length_seq; exact H).
  rewrite (map_nth f), seq_nth by exact H. reflexivity.
Qed.

Lemma nth_map_in (f : A -> B) (l : list A) (dA : A) (dB : B) (n : nat) :
  (n < List.length l)%nat -> nth n (map f l) dB = f (nth n l dA).
Proof.
  intros H. rewrite (nth_indep _ dB (f dA)) by (rewrite length_map; exact H).
  apply map_nth.
Qed.

Lemma Forall2_nth_seq (R : nat -> B -> Prop) (len : nat) (ys : list B) (dB : B) :
  Forall2 R (seq 0 len) ys ->
  forall i : nat, (i < len)%nat -> R i (nth i ys dB).
Proof.
  assert (G : forall (a : nat) (xs : list nat) (zs : list B), Forall2 R xs zs ->
                forall i, (i < List.length xs)%nat -> R (nth i xs a) (nth i zs dB)).
  { intros a xs zs HF. induction HF as [|x y xs' ys' Hxy _ IH']; intros i Hi;
      [cbn [List.length] in Hi; lia |].
    destruct i as [|i]; [exact Hxy |].
    cbn [nth]. apply IH'. cbn [List.length] in Hi. lia. }
  intros H i Hi. specialize (G 0%nat _ _ H i).
  rewrite length_seq, seq_nth in G by exact Hi. apply G. exact Hi.
Qed.

Lemma getitem_nth (l : list A) (i : nat) (x d : A) :
  getitem l i = Ok x -> nth i l d = x.
Proof.
  unfold getitem. destruct (nth_error l i) as [y|] eqn:E; intros H; inversion H.
  subst. apply nth_error_nth. exact E.
Qed.
End ListEntries.

Section PopulationEntries.
Context {num cnum : Type} {N : Numeric num} {CN : ComplexOps num cnum}.
Local Open Scope num_scope.

Variable exp : num -> num.
Variable pi : num.
Variable sici_si : num -> num.
Variable ei : cnum -> cnum.

Lemma build_matrix_nth (nr nc : nat) (entry : nat -> nat -> num) (n k : nat) :
  (n < nr)%nat -> (k < nc)%nat ->
  nth k (nth n (build_matrix nr nc entry) []) zero = entry n k.
Proof.
  intros Hn Hk. unfold build_matrix.
  rewrite (nth_map_seq _ [] n nr Hn). apply nth_map_seq. exact Hk.
Qed.

(** The midpoints of train [l] number [len(s_l) - 1]. *)
Lemma Nsh_nth (s_list : list (list num)) (l : nat) :
  List.length (nth l (map midpoints (map cumsum s_list)) [])
  = (List.length (nth l s_list []) - 1)%nat.
Proof. rewrite nth_midpoints_list. apply midpoints_cumsum_length. Qed.

(** Entry [(n, k)] of block [(l, m)]. *)
Lemma pop_G_block_nth (bw : num) (s_list : list (list num))
    (R_list C_list : list num) (l m n k : nat) (blk : list (list num)) :
  pop_G_block exp pi sici_si ei bw s_list R_list C_list l m = Ok blk ->
  (n < List.length (nth l s_list []) - 1)%nat ->
  (k < List.length (nth m s_list []) - 1)%nat ->
  nth k (nth n blk []) zero =
  let ts_l := cumsum (nth l s_list []) in
  let tsh_mk := nth k (midpoints (cumsum (nth m s_list []))) zero in
  if forallb isinf R_list
  then G_entry_ideal pi sici_si bw ts_l tsh_mk n
  else G_entry_leaky exp pi ei bw (nth l R_list zero * nth l C_list zero)
         ts_l tsh_mk n.
Proof.
  unfold pop_G_block, G_block. intros H Hn Hk.
  rewrite !Nsh_nth in H. rewrite nth_midpoints_list in H.
  replace (nth l (map cumsum s_list) []) with (cumsum (nth l s_list [])) in H
    by (symmetry; exact (map_nth cumsum s_list [] l)).
  destruct (forallb isinf R_list).
  - inversion H. apply build_matrix_nth; assumption.
  - destruct (getitem R_list l) as [R_l|e] eqn:HR; cbn [bind] in H; [|discriminate].
    destruct (getitem C_list l) as [C_l|e] eqn:HC; cbn [bind] in H; [|discriminate].
    inversion H.
    rewrite (getitem_nth _ _ _ zero HR), (getitem_nth _ _ _ zero HC).
    apply build_matrix_nth; assumption.
Qed.

(** Entry [n] of the quanta of encoder [l]. *)
Lemma pop_quanta_nth (s_list : list (list num))
    (b_list d_list R_list C_list : list num) (l n : nat) (q_l : list num) :
  pop_quanta exp s_list b_list d_list R_list C_list l = Ok q_l ->
  (n < List.length (nth l s_list []) - 1)%nat ->
  nth n q_l zero =
  let x := nth (S n) (nth l s_list []) zero in
  let b_l := nth l b_list zero in
  let d_l := nth l d_list zero in
  let R_l := nth l R_list zero in
  let C_l := nth l C_list zero in
  if forallb isinf R_list then C_l * d_l - b_l * x
  else C_l * (d_l + b_l * R_l * (exp (- x / (R_l * C_l)) - of_Z 1)).
Proof.
  unfold pop_quanta, pop_q. intros H Hn.
  assert (Htl : forall (s : list num) (f : num -> num),
             (n < List.length s - 1)%nat ->
             nth n (map f (tl s)) zero = f (nth (S n) s zero)).
  { intros s f Hs. destruct s as [|x0 s]; [cbn [List.length] in Hs; lia |].
    cbn [tl nth]. apply nth_map_in. cbn [List.length] in Hs. lia. }
  destruct (forallb isinf R_list);
    repeat match type of H with
           | context [getitem ?a ?i] =>
               let E := fresh "E" in
               destruct (getitem a i) eqn:E; cbn [bind] in H; [|discriminate];
               apply (getitem_nth _ _ _ zero) in E; rewrite E
           end;
    inversion H; apply Htl; exact Hn.
Qed.

(** C4.  What the population decoder stores.  With
    [Nsh_list[i] = len(s_i) - 1], entry [(n, k)] of block [(l, m)] is at
    row [sum(Nsh_list[:l]) + n] and column [sum(Nsh_list[:m]) + k] of
    [G], and entry [n] of the quanta of encoder [l] at row
    [sum(Nsh_list[:l]) + n] of [q].  The closed form is selected once
    for the whole list: the sine-integral entry and the quanta
    [C_l*d_l - b_l*s_l[1:]] when every [R] is infinite; the
    exponential-integral entry with [RC = R_l*C_l] and the leaky quanta
    when some [R] is finite, also in the rows of an encoder whose own
    [R_l] is infinite. *)
Theorem iaf_decode_pop_entries (s_list : list (list num)) (bw : num)
    (b_list d_list R_list C_list : list num)
    (G : list (list num)) (q : list num) (l m n k : nat) :
  iaf_decode_pop_system exp pi sici_si ei s_list bw b_list d_list R_list C_list
  = Ok (G, q) ->
  (l < List.length s_list)%nat -> (m < List.length s_list)%nat ->
  (n < List.length (nth l s_list []) - 1)%nat ->
  (k < List.length (nth m s_list []) - 1)%nat ->
  let Nsh_list := map (fun s => (List.length s - 1)%nat) s_list in
  let row := (sum_nat (firstn l Nsh_list) + n)%nat in
  let col := (sum_nat (firstn m Nsh_list) + k)%nat in
  let s_l := nth l s_list [] in
  let tsh_mk := nth k (midpoints (cumsum (nth m s_list []))) zero in
  let b_l := nth l b_list zero in
  let d_l := nth l d_list zero in
  let R_l := nth l R_list zero in
  let C_l := nth l C_list zero in
  nth col (nth row G []) zero =
    (if forallb isinf R_list
     then G_entry_ideal pi sici_si bw (cumsum s_l) tsh_mk n
     else G_entry_leaky exp pi ei bw (R_l * C_l) (cumsum s_l) tsh_mk n) /\
  nth row q zero =
    (if forallb isinf R_list
     then C_l * d_l - b_l * nth (S n) s_l zero
     else C_l * (d_l + b_l * R_l *
                   (exp (- nth (S n) s_l zero / (R_l * C_l)) - of_Z 1))).
Proof.
  intros H Hl Hm Hn Hk Nsh_list row col s_l tsh_mk b_l d_l R_l C_l.
  unfold iaf_decode_pop_system in H.
  destruct (mapM (pop_rows exp pi sici_si ei bw s_list b_list d_list R_list C_list)
              (seq 0 (List.length s_list))) as [rows|e] eqn:Hrows;
    cbn [bind] in H; [|discriminate].
  inversion H. subst G q. clear H.
  apply mapM_Forall2 in Hrows.
  pose proof (Forall2_length Hrows) as Hlen. rewrite length_seq in Hlen.
  pose proof (Forall2_nth_seq _ _ _ ([], []) Hrows l Hl) as Hr.
  destruct (nth l rows ([], [])) as [rows_l q_l] eqn:Enth.
  destruct (pop_rows_shape exp pi sici_si ei _ _ _ _ _ _ _ _ _ Hr)
    as [Hrl [_ Hql]].
  rewrite Nsh_nth in Hrl, Hql.
  (* the rows of encoder [l] in [G] and in [q] *)
  assert (Hcount : forall g : list (list num) * list num -> nat,
             (forall i r, pop_rows exp pi sici_si ei bw s_list b_list d_list
                            R_list C_list i = Ok r ->
                          g r = (List.length (nth i s_list []) - 1)%nat) ->
             map g rows = Nsh_list).
  { intros g Hg.
    rewrite (Forall2_map_eq _ g
               (fun i => (List.length (nth i s_list []) - 1)%nat) _ _ Hrows)
      by (intros i r _ Hir; exact (Hg i r Hir)).
    unfold Nsh_list.
    transitivity (map (fun s => (List.length s - 1)%nat)
                    (map (fun i => nth i s_list []) (seq 0 (List.length s_list)))).
    - rewrite (map_map (fun i => nth i s_list [])). reflexivity.
    - rewrite map_nth_seq. reflexivity. }
  assert (HG : nth row (List.concat (map fst rows)) [] = nth n rows_l []).
  { unfold row. rewrite sum_nat_list_sum, <- (Hcount (fun r => List.length (fst r))).
    - rewrite <- (map_map fst (@List.length (list num))), firstn_map.
      rewrite nth_concat.
      + rewrite (nth_map_in fst rows ([], []) [] l) by lia.
        rewrite Enth. reflexivity.
      + rewrite length_map. lia.
      + rewrite (nth_map_in fst rows ([], []) [] l) by lia.
        rewrite Enth. cbn [fst]. lia.
    - intros i [ri qi] Hi. cbn [fst].
      destruct (pop_rows_shape exp pi sici_si ei _ _ _ _ _ _ _ _ _ Hi) as [E _].
      rewrite Nsh_nth in E. exact E. }
  assert (Hq : nth row (List.concat (map snd rows)) zero = nth n q_l zero).
  { unfold row. rewrite sum_nat_list_sum, <- (Hcount (fun r => List.length (snd r))).
    - rewrite <- (map_map snd (@List.length num)), firstn_map.
      rewrite nth_concat.
      + rewrite (nth_map_in snd rows ([], []) [] l) by lia.
        rewrite Enth. reflexivity.
      + rewrite length_map. lia.
      + rewrite (nth_map_in snd rows ([], []) [] l) by lia.
        rewrite Enth. cbn [snd]. lia.
    - intros i [ri qi] Hi. cbn [snd].
      destruct (pop_rows_shape exp pi sici_si ei _ _ _ _ _ _ _ _ _ Hi) as [_ [_ E]].
      rewrite Nsh_nth in E. exact E. }
  rewrite HG, Hq. clear HG Hq Hcount.
  (* inside the rows of encoder [l] *)
  unfold pop_rows in Hr.
  destruct (mapM (pop_G_block exp pi sici_si ei bw s_list R_list C_list l)
              (seq 0 (List.length s_list))) as [blocks|e] eqn:Hblocks;
    cbn [bind] in Hr; [|discriminate].
  destruct (pop_quanta exp s_list b_list d_list R_list C_list l) as [ql|e] eqn:Hquanta;
    cbn [bind] in Hr; [|discriminate].
  inversion Hr. subst rows_l q_l. clear Hr.
  split; [|exact (pop_quanta_nth _ _ _ _ _ _ _ _ Hquanta Hn)].
  apply mapM_Forall2 in Hblocks.
  pose proof (Forall2_length Hblocks) as Hblen. rewrite length_seq in Hblen.
  rewrite Nsh_nth. unfold hstack.
  rewrite (nth_map_seq _ [] n _ Hn).
  assert (Hwidth : map (fun blk : list (list num) => List.length (nth n blk []))
                       blocks = Nsh_list).
  { rewrite (Forall2_map_eq _ (fun blk : list (list num) => List.length (nth n blk []))
               (fun i => (List.length (nth i s_list []) - 1)%nat) _ _ Hblocks).
    - unfold Nsh_list.
      transitivity (map (fun s => (List.length s - 1)%nat)
                      (map (fun i => nth i s_list []) (seq 0 (List.length s_list)))).
      + rewrite (map_map (fun i => nth i s_list [])). reflexivity.
      + rewrite map_nth_seq. reflexivity.
    - intros i blk _ Hblk.
      destruct (pop_G_block_shape exp pi sici_si ei _ _ _ _ _ _ _ Hblk) as [E1 E2].
      rewrite Nsh_nth in E1, E2. rewrite Forall_forall in E2.
      apply E2. apply nth_In. lia. }
  pose proof (Forall2_nth_seq _ _ _ [] Hblocks m Hm) as Hblk.
  assert (Hrow_m : nth m (map (fun blk : list (list num) => nth n blk []) blocks) []
                   = nth n (nth m blocks []) []).
  { apply (nth_map_in (fun blk : list (list num) => nth n blk []) blocks [] [] m).
    lia. }
  unfold col. rewrite sum_nat_list_sum, <- Hwidth.
  rewrite <- (map_map (fun blk : list (list num) => nth n blk [])
                (@List.length num)), firstn_map.
  rewrite nth_concat.
  - rewrite Hrow_m. exact (pop_G_block_nth _ _ _ _ _ _ _ _ _ Hblk Hn Hk).
  - rewrite length_map. lia.
  - rewrite Hrow_m.
    destruct (pop_G_block_shape exp pi sici_si ei _ _ _ _ _ _ _ Hblk) as [E1 E2].
    rewrite Nsh_nth in E1, E2. rewrite Forall_forall in E2.
    rewrite (E2 (nth n (nth m blocks []) [])) by (apply nth_In; lia). exact Hk.
Qed.

End PopulationEntries.

(** ** The length of a decoded signal *)

Section OutputLength.
Context {num cnum : Type} {N : Numeric num} {CN : ComplexOps num cnum}.
Local Open Scope num_scope.

Variable exp : num -> num.
Variable pi : num.
Variable sici_si : num -> num.
Variable ei : cnum -> cnum.
Variable sinc : num -> num.
Variable arange : num -> num -> num -> list num.
Variable pinv : list (list num) -> num -> result (list (list num)).
Variable mdot : list (ndarray cnum) -> result (list (list cnum)).
Variable bpa : list (list cnum) -> list (list cnum) -> result (list (list cnum)).

(** What every round keeps holds when the loop is left. *)
Lemma for_range_invariant {St : Type} (body : St -> nat -> result St)
    (P : St -> Prop) :
  (forall st i st', P st -> body st i = Ok st' -> P st') ->
  forall (n i : nat) (st st' : St),
    P st -> for_range body i n st = Ok st' -> P st'.
Proof.
  intros Hbody. induction n as [|n IH]; intros i st st' HP Hrun.
  - inversion Hrun. subst. exact HP.
  - cbn [for_range] in Hrun.
    destruct (body st i) as [st1|e] eqn:Hst; cbn [bind] in Hrun; [|discriminate].
    exact (IH _ _ _ (Hbody _ _ _ HP Hst) Hrun).
Qed.

Lemma zeros_length (t : list num) :
  List.length (map (fun _ : num => zero) t) = List.length t.
Proof. apply length_map. Qed.

(** [u_rec += ...] adds an array of the length of [t]. *)
Lemma sinc_reconstruct_length (t tsh : list num) (bwpi : num) (c : list num)
    (offset : nat) (u0 u : list num) :
  List.length u0 = List.length t ->
  sinc_reconstruct sinc t tsh bwpi c offset u0 = Ok u ->
  List.length u = List.length t.
Proof.
  unfold sinc_reconstruct. intros H0.
  apply (for_range_invariant _ (fun v => List.length v = List.length t));
    [|exact H0].
  intros st i st' Hst Hbody.
  destruct (getitem c (offset + i)); cbn [bind] in Hbody; [|discriminate].
  destruct (getitem tsh i); cbn [bind] in Hbody; [|discriminate].
  inversion Hbody. rewrite map2_length, length_map, Hst. apply Nat.min_id.
Qed.

Lemma vander_reconstruct_length (s : list num) (dur dt bw : num)
    (d : list (list cnum)) (u : list num) :
  vander_reconstruct arange s dur dt bw d = Ok u ->
  List.length u = List.length (arange zero dur dt).
Proof.
  unfold vander_reconstruct.
  apply (for_range_invariant _
           (fun v => List.length v = List.length (arange zero dur dt)));
    [|apply zeros_length].
  intros st i st' Hst Hbody.
  destruct (pydiv _ _); cbn [bind] in Hbody; [|discriminate].
  destruct (getitem d i) as [row|]; cbn [bind] in Hbody; [|discriminate].
  destruct (getitem row 0); cbn [bind] in Hbody; [|discriminate].
  inversion Hbody. rewrite map2_length, Hst. apply Nat.min_id.
Qed.

(** X10.  A signal decoded by [iaf_decode] or by [iaf_decode_pop] has
    one sample per entry of [arange(0, dur, dt)], whatever the number of
    spikes and of encoders. *)
Theorem iaf_decode_output_length (s : list num) (s_list : list (list num))
    (dur dt bw b d R C : num) (b_list d_list R_list C_list : list num)
    (u : list num) :
  iaf_decode exp pi sici_si ei sinc arange pinv s dur dt bw b d R C = Ok u \/
  iaf_decode_pop exp pi sici_si ei sinc arange pinv
    s_list dur dt bw b_list d_list R_list C_list = Ok u ->
  List.length u = List.length (arange zero dur dt).
Proof.
  intros [H | H].
  - unfold iaf_decode in H.
    destruct (Nat.ltb (List.length s) 2); [discriminate |].
    unfold iaf_decode_solve in H.
    destruct (pinv _ pinv_rcond) as [Gi|e]; cbn [bind] in H; [|discriminate].
    apply sinc_reconstruct_length in H; [exact H | apply zeros_length].
  - unfold iaf_decode_pop in H.
    destruct (Nat.eqb (List.length s_list) 0); [discriminate |].
    destruct (iaf_decode_pop_system _ _ _ _ _ _ _ _ _ _) as [[G q]|e];
      cbn [bind] in H; [|discriminate].
    destruct (pinv G pinv_rcond) as [Gi|e]; cbn [bind] in H; [|discriminate].
    revert H.
    apply (for_range_invariant _
             (fun v => List.length v = List.length (arange zero dur dt)));
      [|apply zeros_length].
    intros st m st' Hst Hbody.
    exact (sinc_reconstruct_length _ _ _ _ _ _ _ Hst Hbody).
Qed.

(** X11.  A signal decoded by one of the three Vandermonde decoders has
    one sample per entry of [arange(0, dur, dt)]. *)
Theorem vander_output_length (s : list num) (dur dt bw b d k sgn R C : num)
    (u : list num) :
  asdm_decode_vander arange mdot bpa s dur dt bw b d k sgn = Ok u \/
  asdm_decode_vander_ins arange mdot bpa s dur dt bw b sgn = Ok u \/
  iaf_decode_vander exp arange mdot bpa s dur dt bw b d R C = Ok u ->
  List.length u = List.length (arange zero dur dt).
Proof.
  intros [H | [H | H]].
  - unfold asdm_decode_vander in H.
    destruct (vander_P s); cbn [bind] in H; [|discriminate].
    destruct (mdot _); cbn [bind] in H; [|discriminate].
    destruct (bpa _ _); cbn [bind] in H; [|discriminate].
    exact (vander_reconstruct_length _ _ _ _ _ _ H).
  - unfold asdm_decode_vander_ins in H.
    destruct (vander_P s); cbn [bind] in H; [|discriminate].
    destruct (ins_bh _); cbn [bind] in H; [|discriminate].
    destruct (mdot _); cbn [bind] in H; [|discriminate].
    destruct (bpa _ _) as [x|]; cbn [bind] in H; [|discriminate].
    destruct (bpa _ _) as [y|]; cbn [bind] in H; [|discriminate].
    destruct (mdot _); cbn [bind] in H; [|discriminate].
    exact (vander_reconstruct_length _ _ _ _ _ _ H).
  - unfold iaf_decode_vander in H.
    destruct (vander_P s); cbn [bind] in H; [|discriminate].
    destruct (mdot _); cbn [bind] in H; [|discriminate].
    destruct (bpa _ _); cbn [bind] in H; [|discriminate].
    exact (vander_reconstruct_length _ _ _ _ _ _ H).
Qed.

(** X12.  A train of fewer than two intervals and the
    parameter-insensitive decoder: on the empty train numpy refuses the
    shape [(-1, -1)] of [P]; on a train of one interval [bh] is empty
    and [bh[-1] = 1.0] raises an IndexError.  Neither [mdot] nor [bpa]
    is reached. *)
Theorem asdm_decode_vander_ins_short_train (s : list num)
    (dur dt bw b sgn : num) :
  (List.length s < 2)%nat ->
  asdm_decode_vander_ins arange mdot bpa s dur dt bw b sgn
  = Raise (if Nat.eqb (List.length s) 0 then NegativeDimensions
           else IndexError).
Proof.
  intros H. destruct s as [|s0 [|s1 s']]; [reflexivity | reflexivity |].
  cbn [List.length] in H. lia.
Qed.

(** X17.  A train of exactly two intervals has [ns = 1] and [n = 0]:
    the reconstruction loop runs, and its first statement divides by
    [n].  So none of the three Vandermonde decoders returns a signal on
    such a train: when [mdot] and [bpa] return, the call ends with a
    ZeroDivisionError. *)
Theorem vander_two_intervals_raise (s0 s1 : num)
    (dur dt bw b d k sgn R C : num) :
  eqb zero zero = true ->
  let s := [s0; s1] in
  let V := vander_V s bw in
  let D := vander_D s bw in
  let P := triu_ones 1 in
  asdm_decode_vander arange mdot bpa s dur dt bw b d k sgn =
    (rhs <- mdot [Matrix D; Matrix P;
                  Matrix (column (map cof (asdm_vander_q s b d k sgn)))] ;;
     _ <- bpa V rhs ;;
     Raise ZeroDivisionError) /\
  asdm_decode_vander_ins arange mdot bpa s dur dt bw b sgn =
    (rhs <- mdot [Matrix D;
                  Matrix (map2 (map2 csub) P (cdot (column (ins_a 1)) [[cZ 1]]));
                  Matrix (column (map cof (ins_r s sgn)))] ;;
     x <- bpa V rhs ;;
     y <- bpa V (cdot D (column (ins_a 1))) ;;
     _ <- mdot [Matrix y; Matrix (map (map cconj) (transpose y)); Matrix x] ;;
     Raise ZeroDivisionError) /\
  iaf_decode_vander exp arange mdot bpa s dur dt bw b d R C =
    (rhs <- mdot [Matrix D; Matrix P;
                  Matrix (column (map cof (iaf_decode_vander_q exp s b d R C)))] ;;
     _ <- bpa V rhs ;;
     Raise ZeroDivisionError).
Proof.
  intros Hz s V D P.
  assert (Hrec : forall c : list (list cnum),
             vander_reconstruct arange s dur dt bw c = Raise ZeroDivisionError).
  { intros c. unfold vander_reconstruct.
    change (vander_n s) with 0%Z. change (Z.to_nat (vander_ns s)) with 1%nat.
    cbn [for_range]. unfold pydiv. fold (@zero num N). rewrite Hz. reflexivity. }
  unfold asdm_decode_vander, asdm_decode_vander_ins, iaf_decode_vander.
  fold V. fold D.
  change (vander_P s) with (Ok P). cbn [bind].
  change (Z.to_nat (vander_ns s)) with 1%nat.
  change (ins_bh 1) with (Ok [cZ 1]). cbn [bind].
  split; [| split].
  - destruct (mdot _) as [rhs|e]; cbn [bind]; [|reflexivity].
    destruct (bpa V rhs) as [c|e]; cbn [bind]; [apply Hrec | reflexivity].
  - destruct (mdot _) as [rhs|e]; cbn [bind]; [|reflexivity].
    destruct (bpa V rhs) as [x|e]; cbn [bind]; [|reflexivity].
    destruct (bpa V _) as [y|e]; cbn [bind]; [|reflexivity].
    destruct (mdot _) as [yyx|e]; cbn [bind]; [apply Hrec | reflexivity].
  - destruct (mdot _) as [rhs|e]; cbn [bind]; [|reflexivity].
    destruct (bpa V rhs) as [c|e]; cbn [bind]; [apply Hrec | reflexivity].
Qed.

End OutputLength.

(** ** The sign of the first spike *)

Section RealTrains.
Import RealNum.
Local Open Scope R_scope.

Lemma map2_opp (l X : list R) :
  map2 Rmult (map Ropp l) X = map Ropp (map2 Rmult l X).
Proof.
  revert X. induction l as [|a l IH]; intros [|x X]; cbn [map map2]; try reflexivity.
  rewrite IH. f_equal. ring.
Qed.

Lemma alternating_shift (n : nat) :
  forall a : nat,
    map (fun i => IZR ((-1) ^ Z.of_nat i)) (seq (S a) n)
    = map Ropp (map (fun i => IZR ((-1) ^ Z.of_nat i)) (seq a n)).
Proof.
  induction n as [|n IH]; intros a; [reflexivity |].
  cbn [seq map]. rewrite IH. f_equal.
  rewrite Nat2Z.inj_succ, Z.pow_succ_r by lia.
  rewrite mult_IZR. lra.
Qed.

Lemma odd_even_signs (n : nat) :
  map (fun i => if Nat.odd i then IZR (-1) else IZR 1) (seq 0 n)
  = map Ropp (map (fun i => if Nat.even i then IZR (-1) else IZR 1) (seq 0 n)).
Proof.
  rewrite map_map. apply map_ext. intros i.
  rewrite <- Nat.negb_even. destruct (Nat.even i); cbn [negb]; lra.
Qed.

(** X15.  Over the real numbers, and for both decoders of the
    asynchronous sigma-delta modulator: every value of [sgn] other than
    [-1] is taken as [+1], and the quanta (the vector [r] of the
    parameter-insensitive decoder) are then the negatives of those for
    [sgn = -1]. *)
Theorem asdm_first_spike_sign (s : list R) (b d k sgn : R) :
  sgn <> -1 ->
  asdm_vander_q s b d k sgn = map Ropp (asdm_vander_q s b d k (-1)) /\
  ins_r s sgn = map Ropp (ins_r s (-1)).
Proof.
  intros Hsgn.
  assert (Hne : Reqb sgn (-1) = false)
    by (unfold Reqb; destruct (Req_dec_T sgn (-1)); [contradiction | reflexivity]).
  unfold asdm_vander_q, ins_r.
  cbn [eqb mul of_Z real_numeric]. rewrite Hne, Reqb_refl. split.
  - rewrite alternating_shift. apply map2_opp.
  - rewrite odd_even_signs. apply map2_opp.
Qed.

End RealTrains.

(** ** Examples in binary64 *)

Section FurtherFloatExamples.
Import FloatNum.
Local Open Scope float_scope.

(** Five unit samples, rectangular rule, threshold [1.5]: the first
    three give the interval [2] and leave [y = 1], [interval = 1]; the
    last two, encoded from that state, give [2] again. *)
Lemma iaf_encode_full_blocks_witness :
  iaf_encode_full FloatNum.exp FloatNum.resample [1; 1; 1; 1; 1]
    1 0 1.5 infinity 1 0 0 0 "rect"
  = Ok (mkState [2; 2] 1 1 1).
Proof.
  exact (iaf_encode_full_blocks FloatNum.exp FloatNum.resample
           [1; 1; 1] [1; 1] 1 0 1.5 infinity 1 0 0 0 "rect"
           (mkState [2] 1 1 1) (mkState [2] 1 1 1)
           eq_refl eq_refl eq_refl (or_intror eq_refl) eq_refl eq_refl).
Defined.

(** Four samples under the trapezoidal rule: three rounds, one spike. *)
Lemma iaf_encode_spike_count_witness :
  le (List.length [2]) (encode_rounds [1; 1; 1; 1] infinity "trapz") /\
  le (encode_rounds [1; 1; 1; 1] infinity "trapz") 4.
Proof.
  exact (iaf_encode_spike_count FloatNum.exp FloatNum.resample
           [1; 1; 1; 1] 1 0 1.5 infinity 1 0 0 0 "trapz" [2] eq_refl).
Defined.

(** After three unit samples the integrator holds [1], below [1.5]. *)
Lemma iaf_encode_full_final_state_witness :
  (1 >=? 1.5)%num = false \/ (1 = zero /\ 1 = zero).
Proof.
  apply (iaf_encode_full_final_state FloatNum.exp FloatNum.resample
           [1; 1; 1] 1 0 1.5 infinity 1 0 0 0 "rect" (mkState [2] 1 1 1)).
  - cbn. lia.
  - reflexivity.
Defined.

(** Two encoders with two and three intervals: [1 + 2] midpoints. *)
Lemma iaf_decode_pop_system_shape_witness :
  exists (G : list (list float)) (q : list float),
    iaf_decode_pop_system FloatNum.exp FloatNum.pi FloatNum.sici_si cfloat_nan
      [[1; 1]; [1; 1; 1]] 2 [3; 3] [2; 2] [infinity; infinity] [1; 1]
    = Ok (G, q) /\
    List.length G = 3%nat /\
    Forall (fun row => List.length row = 3%nat) G /\
    List.length q = 3%nat.
Proof.
  eexists. eexists.
  refine ((fun H => conj H
             (iaf_decode_pop_system_shape FloatNum.exp FloatNum.pi
                FloatNum.sici_si cfloat_nan
                [[1; 1]; [1; 1; 1]] 2 [3; 3] [2; 2] [infinity; infinity] [1; 1]
                _ _ H)) _).
  reflexivity.
Defined.

(** One train and an empty [b_list]; the routines that are never
    reached are left unevaluated. *)
Lemma iaf_decode_pop_short_parameters_witness :
  iaf_decode_pop FloatNum.exp FloatNum.pi FloatNum.sici_si cfloat_nan
    (fun _ => nan) (fun _ _ _ => []) (fun _ _ => Raise LinAlgError)
    [[1; 1]] 2 1 2 [] [2] [infinity] [1]
  = Raise IndexError.
Proof.
  apply iaf_decode_pop_short_parameters. left. cbn. lia.
Defined.

(** [R_list = [inf]] and the empty [R_list]. *)
Lemma iaf_decode_pop_ideal_ignores_R_witness :
  iaf_decode_pop FloatNum.exp FloatNum.pi FloatNum.sici_si cfloat_nan
    (fun _ => nan) (fun start _ step => [start; start + step])
    (fun G _ => Ok (map (map (fun g => 1 / g)) G))
    [[1; 1]] 2 1 2 [3] [2] [infinity] [1]
  = iaf_decode_pop FloatNum.exp FloatNum.pi FloatNum.sici_si cfloat_nan
      (fun _ => nan) (fun start _ step => [start; start + step])
      (fun G _ => Ok (map (map (fun g => 1 / g)) G))
      [[1; 1]] 2 1 2 [3] [2] [] [1].
Proof.
  apply iaf_decode_pop_ideal_ignores_R; reflexivity.
Defined.

(** A train of two intervals, [dur = 2], [dt = 1]: the system is
    1-by-1, where the pseudo-inverse of a non-zero entry is its
    reciprocal, and [arange(0, 2, 1)] is [[0, 1]]; [sinc] is left
    unevaluated, which changes no length. *)
Lemma iaf_decode_output_length_witness :
  exists u : list float,
    iaf_decode FloatNum.exp FloatNum.pi FloatNum.sici_si cfloat_nan
      (fun _ => nan) (fun start _ step => [start; start + step])
      (fun G _ => Ok (map (map (fun g => 1 / g)) G))
      [1; 1] 2 1 2 3 2 infinity 1
    = Ok u /\
    List.length u = 2%nat.
Proof.
  eexists.
  refine ((fun H => conj H
             (iaf_decode_output_length FloatNum.exp FloatNum.pi
                FloatNum.sici_si cfloat_nan
                (fun _ => nan) (fun start _ step => [start; start + step])
                (fun G _ => Ok (map (map (fun g => 1 / g)) G))
                [1; 1] [] 2 1 2 3 2 infinity 1 [] [] [] [] _ (or_introl H))) _).
  reflexivity.
Defined.

(** A train of three intervals, [dur = 2], [dt = 1]: a system of two
    nodes, and two rounds of the reconstruction loop on
    [arange(0, 2, 1) = [0, 1]].  The right-hand side is the product of
    the three matrices; the complex exponential and [bpa] are not
    evaluated (NaN for the one, an array of the shape of the solution
    for the other), which changes no length. *)
Lemma vander_output_length_witness :
  exists u : list float,
    iaf_decode_vander FloatNum.exp (fun start _ step => [start; start + step])
      mdot_product (fun _ rhs => Ok rhs)
      [1; 1; 1] 2 1 2 3 2 infinity 1
    = Ok u /\
    List.length u = 2%nat.
Proof.
  eexists.
  refine ((fun H => conj H
             (vander_output_length FloatNum.exp
                (fun start _ step => [start; start + step])
                mdot_product (fun _ rhs => Ok rhs)
                [1; 1; 1] 2 1 2 3 2 0 0 infinity 1 _ (or_intror (or_intror H)))) _).
  reflexivity.
Defined.

(** One interval: [bh = zeros(0)] has no last entry. *)
Lemma asdm_decode_vander_ins_short_train_witness :
  asdm_decode_vander_ins (fun start _ step => [start; start + step])
    (fun _ => Ok []) (fun (_ rhs : list (list cfloat)) => Ok rhs)
    [1] 2 1 2 3 (-1)
  = Raise IndexError.
Proof.
  apply (asdm_decode_vander_ins_short_train
           (fun start _ step => [start; start + step])
           (fun _ => Ok []) (fun (_ rhs : list (list cfloat)) => Ok rhs)
           [1] 2 1 2 3 (-1)).
  cbn. lia.
Defined.

(** A train of two unit intervals: with matrix products evaluated and
    a solver that returns, each decoder ends with the
    ZeroDivisionError. *)
Lemma vander_two_intervals_raise_witness :
  asdm_decode_vander (fun start _ step => [start; start + step])
    mdot_product (fun _ rhs => Ok rhs) [1; 1] 2 1 2 3 2 1 (-1)
  = Raise ZeroDivisionError /\
  asdm_decode_vander_ins (fun start _ step => [start; start + step])
    mdot_product (fun _ rhs => Ok rhs) [1; 1] 2 1 2 3 (-1)
  = Raise ZeroDivisionError /\
  iaf_decode_vander FloatNum.exp (fun start _ step => [start; start + step])
    mdot_product (fun _ rhs => Ok rhs) [1; 1] 2 1 2 3 2 infinity 1
  = Raise ZeroDivisionError.
Proof.
  exact (vander_two_intervals_raise FloatNum.exp
           (fun start _ step => [start; start + step])
           mdot_product (fun _ rhs => Ok rhs)
           1 1 2 1 2 3 2 1 (-1) infinity 1 eq_refl).
Defined.

(** Five unit samples, rectangular rule, threshold [1.5]: spikes after
    two and after two more rounds, and one round is left over. *)
Lemma iaf_encode_full_accounted_witness :
  (exists (ns : list nat) (n_out : nat),
      Forall (fun n => (1 <= n)%nat) ns /\
      (list_sum ns + n_out)%nat = 5%nat /\
      intervals_after 1 0 ns n_out = ([2; 2], 1)) /\
  intervals_after 1 0 [2%nat; 2%nat] 1 = ([2; 2], 1).
Proof.
  split.
  - exact (iaf_encode_full_accounted FloatNum.exp FloatNum.resample
             [1; 1; 1; 1; 1] 1 0 1.5 infinity 1 0 0 0 "rect"
             (mkState [2; 2] 1 1 1) eq_refl).
  - reflexivity.
Defined.

(** C4 on a mixed list: two encoders with two and three intervals, the
    first with an infinite [R], the second with [R = 1].  The rows of
    the first encoder are computed by the exponential-integral form with
    [RC = inf]: entry [(0, 0)] of [G] (block [(0, 0)]), entry [(0, 2)]
    (block [(0, 1)]) and entry [0] of [q] are NaN.  The sine-integral
    entry of block [(0, 0)] is [Si(1)/pi - Si(-1)/pi], and the quantum
    without leak is [C*d - b*s = -1]. *)
Lemma iaf_decode_pop_entries_witness :
  exists (G : list (list float)) (q : list float),
    iaf_decode_pop_system FloatNum.exp FloatNum.pi FloatNum.sici_si cfloat_nan
      [[1; 1]; [1; 1; 1]] 2 [3; 3] [2; 2] [infinity; 1] [1; 1]
    = Ok (G, q) /\
    (nth 0 (nth 0 G []) zero
     = G_entry_leaky FloatNum.exp FloatNum.pi cfloat_nan 2 (infinity * 1)
         [1; 2] 1.5 0 /\
     nth 0 q zero
     = 1 * (2 + 3 * infinity * (FloatNum.exp (- 1 / (infinity * 1)) - 1))) /\
    (nth 2 (nth 0 G []) zero
     = G_entry_leaky FloatNum.exp FloatNum.pi cfloat_nan 2 (infinity * 1)
         [1; 2] 2.5 0 /\
     nth 0 q zero
     = 1 * (2 + 3 * infinity * (FloatNum.exp (- 1 / (infinity * 1)) - 1))) /\
    PrimFloat.is_nan (nth 0 (nth 0 G []) zero) = true /\
    PrimFloat.is_nan (nth 2 (nth 0 G []) zero) = true /\
    PrimFloat.is_nan (nth 0 q zero) = true /\
    G_entry_ideal FloatNum.pi FloatNum.sici_si 2 [1; 2] 1.5 0
    = FloatNum.sici_si 1 / FloatNum.pi - FloatNum.sici_si (-1) / FloatNum.pi /\
    PrimFloat.is_nan
      (G_entry_ideal FloatNum.pi FloatNum.sici_si 2 [1; 2] 1.5 0) = false /\
    1 * 2 - 3 * 1 = -1.
Proof.
  eexists. eexists. split; [reflexivity |].
  split.
  { exact (iaf_decode_pop_entries FloatNum.exp FloatNum.pi FloatNum.sici_si
             cfloat_nan [[1; 1]; [1; 1; 1]] 2 [3; 3] [2; 2] [infinity; 1] [1; 1]
             _ _ 0%nat 0%nat 0%nat 0%nat eq_refl
             (Nat.lt_0_succ 1) (Nat.lt_0_succ 1)
             (Nat.lt_0_succ 0) (Nat.lt_0_succ 0)). }
  split.
  { exact (iaf_decode_pop_entries FloatNum.exp FloatNum.pi FloatNum.sici_si
             cfloat_nan [[1; 1]; [1; 1; 1]] 2 [3; 3] [2; 2] [infinity; 1] [1; 1]
             _ _ 0%nat 1%nat 0%nat 1%nat eq_refl
             (Nat.lt_0_succ 1) (Nat.lt_succ_diag_r 1)
             (Nat.lt_0_succ 0) (Nat.lt_succ_diag_r 1)). }
  repeat split.
Defined.

End FurtherFloatExamples.

(** ** Examples over the real numbers *)

Section FurtherRealExamples.
Import RealNum.
Local Open Scope R_scope.

Lemma asdm_first_spike_sign_witness :
  asdm_vander_q [1; 2; 3] 1 1 1 1 = map Ropp (asdm_vander_q [1; 2; 3] 1 1 1 (-1)) /\
  ins_r [1; 2; 3] 1 = map Ropp (ins_r [1; 2; 3] (-1)).
Proof.
  apply asdm_first_spike_sign. lra.
Defined.

End FurtherRealExamples.
